(** * CXXCopyElision: elimination of calls of C++ copy/move constructors

    A shallow embedding of [llvm/lib/Transforms/Scalar/CXXCopyElision.cpp]
    and the properties of the pass that its description states.

    The instruction graph of one function is an arena of nodes addressed by
    stable handles; the consumers of a value are read off the operand edges,
    so the two are consistent by construction.  The pass keeps three members
    ([DeadInstList], [From], [To]) which are threaded explicitly.  A failed
    [assert], a failed [cast<>], a null dereference and an access to an
    erased instruction end the run with [Abort]. *)

From stdpp Require Import base option list.
From Stdlib Require Import Lia.

(** ** Values, instructions, functions *)

(** A [Value*] is a handle into the arena of the function. *)
Definition Value := nat.

Inductive IntrinsicID := lifetime_start | lifetime_end | other_intrinsic.

(** The instruction kinds the pass distinguishes.  A [CallBase]
    carries the constructor/destructor tag read by
    [CallBase::isCxxCMCtorOrDtor], the intrinsic it calls when it is an
    [IntrinsicInst], and the number of trailing operands that are not
    arguments (operand bundles, the callee).  [NotInstruction] stands for
    arguments, globals and constants. *)
Inductive Opcode :=
| AllocaInst
| BitCastInst
| GetElementPtrInst
| CallBase (cxxCMCtorOrDtor : bool) (iid : option IntrinsicID) (nonArgOperands : nat)
| OtherInst
| NotInstruction.

Record Node := mkNode { opcode : Opcode; operands : list Value }.

Record BasicBlock := mkBlock { insts : list Value; succs : list nat }.

(** An erased instruction leaves [None] in its slot. *)
Record Function := mkFunction {
  arena : list (option Node);
  blocks : list BasicBlock }.


Definition getNode (F : Function) (v : Value) : option Node :=
  match arena F !! v with
  | Some (Some n) => Some n
  | _ => None
  end.

(** ** Outcomes *)

Inductive Fault :=
| DtorNotReached   (* assert: "dtor is not reached by copy/move ctor" *)
| ErasedHasUses    (* assert: "Erased instruction has uses" *)
| NullDereference
| InvalidCast
| UseAfterErase.

Inductive Outcome (A : Type) :=
| Done (a : A)
| Abort (f : Fault).
Arguments Done {A} a.
Arguments Abort {A} f.

Definition bind {A B} (m : Outcome A) (k : A -> Outcome B) : Outcome B :=
  match m with
  | Done a => k a
  | Abort f => Abort f
  end.

Notation "'do' x <- m ; k" := (bind m (fun x => k))
  (at level 10, x pattern, m at level 100, k at level 200).


(** ** isa<> / dyn_cast<> on nodes *)

Definition isaInstruction (n : Node) : bool :=
  match opcode n with NotInstruction => false | _ => true end.
Definition isaAllocaInst (n : Node) : bool :=
  match opcode n with AllocaInst => true | _ => false end.
Definition isaBitCastInst (n : Node) : bool :=
  match opcode n with BitCastInst => true | _ => false end.
Definition isaGetElementPtrInst (n : Node) : bool :=
  match opcode n with GetElementPtrInst => true | _ => false end.
Definition isaCallBase (n : Node) : bool :=
  match opcode n with CallBase _ _ _ => true | _ => false end.
Definition isaIntrinsicInst (n : Node) : bool :=
  match opcode n with CallBase _ (Some _) _ => true | _ => false end.
Definition getIntrinsicID (n : Node) : option IntrinsicID :=
  match opcode n with CallBase _ i _ => i | _ => None end.
Definition isLifetimeStartOrEnd (n : Node) : bool :=
  match getIntrinsicID n with
  | Some lifetime_start | Some lifetime_end => true
  | _ => false
  end.
Definition isLifetimeEnd (n : Node) : bool :=
  match getIntrinsicID n with Some lifetime_end => true | _ => false end.

(** Modelled from the spec: [CallBase::isCxxCMCtorOrDtor] is declared
    outside the sources at hand; it reads the call-kind tag that the
    constructor and destructor families share. *)
Definition isCxxCMCtorOrDtor_tag (CB : Node) : bool :=
  match opcode CB with CallBase t _ _ => t | _ => false end.

Definition getNumArgOperands (CB : Node) : nat :=
  match opcode CB with
  | CallBase _ _ extra => length (operands CB) - extra
  | _ => 0
  end.

(** ** The call classifier (source lines 35-52) *)

Definition isCxxCMCtor (CB : Node) : bool :=
  isCxxCMCtorOrDtor_tag CB && (getNumArgOperands CB =? 2).

Definition isCxxDtor_CB (CB : Node) : bool :=
  isCxxCMCtorOrDtor_tag CB && (getNumArgOperands CB =? 1).

(** The overload on [Instruction]: [dyn_cast<CallBase>] first. *)
Definition isCxxDtor (I : Node) : bool :=
  if isaCallBase I then isCxxDtor_CB I else false.

Definition isCxxCMCtorOrDtor (CB : Node) : bool :=
  isCxxCMCtor CB || isCxxDtor_CB CB.

(** The three-way classification of section 4.2, read off the predicates
    above. *)
Inductive CallClass := CopyOrMoveConstruct | Destruct | Ordinary.

Definition classify (CB : Node) : CallClass :=
  if isCxxCMCtor CB then CopyOrMoveConstruct
  else if isCxxDtor_CB CB then Destruct
  else Ordinary.

(** ** Consumers *)

Definition usesIn (v : Value) (n : Node) : nat :=
  count_occ Nat.eq_dec (operands n) v.

(** One entry per use, in arena order. *)
Fixpoint usersFrom (i : nat) (ns : list (option Node)) (v : Value) : list Value :=
  match ns with
  | [] => []
  | o :: ns' =>
      match o with
      | Some n => replicate (usesIn v n) i
      | None => []
      end ++ usersFrom (S i) ns' v
  end.

Definition users (F : Function) (v : Value) : list Value :=
  usersFrom 0 (arena F) v.

Definition getNumUses (F : Function) (v : Value) : nat := length (users F v).

Definition hasOneUse (F : Function) (v : Value) : bool := getNumUses F v =? 1.

(** ** Graph mutation *)

(** Modelled from the spec: [Instruction::eraseFromParent] is not among the
    sources; section 6 has it remove the instruction from the graph.  The
    operand edges of the erased instruction go with it.  The successors of
    a block are a field of their own here, so the erasure of a terminator
    is not followed up in them; nothing below is stated about successors
    after an erasure. *)
Definition eraseFromParent (F : Function) (v : Value) : Function :=
  {| arena := <[v := None]> (arena F);
     blocks := map (fun B =>
                      {| insts := List.filter (fun i => negb (Nat.eqb i v)) (insts B);
                         succs := succs B |}) (blocks F) |}.

Definition replaceOperand (from to : Value) (n : Node) : Node :=
  {| opcode := opcode n;
     operands := map (fun o => if Nat.eqb o from then to else o) (operands n) |}.

(** Modelled from the spec: [Value::replaceAllUsesWith] is not among the
    sources; section 4.6 has it redirect every remaining use of the one
    value to the other. *)
Definition replaceAllUsesWith (F : Function) (from to : Value) : Function :=
  {| arena := map (option_map (replaceOperand from to)) (arena F);
     blocks := blocks F |}.

(** ** The candidate collector (source lines 58-79) *)

Definition visitCallBase (CB : Node) (h : Value) (CtorVec : list Value) : list Value :=
  if isCxxCMCtor CB then CtorVec ++ [h] else CtorVec.

Definition visit (F : Function) (CtorVec : list Value) (h : Value) : list Value :=
  match getNode F h with
  | Some n => if isaCallBase n then visitCallBase n h CtorVec else CtorVec
  | None => CtorVec
  end.

Definition collectCtors (F : Function) : list Value :=
  fold_left (fun CtorVec BB => fold_left (visit F) (insts BB) CtorVec) (blocks F) [].

(** ** The analyses the pass consumes *)

(** [skipFunction], [GetUnderlyingObject], [isPotentiallyReachable] and
    [onlyUsedByLifetimeMarkers] are called by the pass and implemented
    elsewhere; the pass is defined over any implementation of them. *)
Class Analyses := {
  skipFunction : Function -> bool;
  GetUnderlyingObject : Function -> Value -> Value;
  isPotentiallyReachable : Function -> Value -> Value -> bool;
  onlyUsedByLifetimeMarkers : Function -> Value -> bool }.

(** The members of [CXXCopyElisionLegacyPass]. *)
Record Pass := mkPass {
  DeadInstList : list Value;
  From : option Value;
  To : option Value }.


Section CXXCopyElision.
Context `{An : Analyses}.

(** *** isTrivialInstruction (source lines 197-207) *)

Definition isTrivialInstruction (F : Function) (h : Value) (I : Node) : bool :=
  if isaIntrinsicInst I && negb (isLifetimeStartOrEnd I) then false
  else if isCxxDtor I then true
  else (isaBitCastInst I || isaGetElementPtrInst I) && onlyUsedByLifetimeMarkers F h.

(** *** findImmediateCopiedDtors (source lines 209-238) *)

(** The body of the loop for one consumer [IU] of [I].  In the third branch
    the source reads [II], which is the null result of the failed
    [dyn_cast<IntrinsicInst>(&I)] of the branch before. *)
Definition copiedDtorStep (F : Function) (I : Node) (Dtors : list Value) (IU : Value)
  : Outcome (list Value) :=
  match getNode F IU with
  | None => Abort UseAfterErase
  | Some DI =>
      if negb (isaInstruction DI) then Done Dtors
      else if isCxxDtor DI then Done (Dtors ++ [IU])
      else if isaIntrinsicInst I then
        if isLifetimeEnd I then Done (Dtors ++ [IU]) else Done Dtors
      else if (isaBitCastInst DI || isaGetElementPtrInst DI) && hasOneUse F IU then
        match users F IU with
        | [] => Abort NullDereference
        | U :: _ =>
            match getNode F U with
            | None => Abort UseAfterErase
            | Some UN =>
                if isaIntrinsicInst UN then Abort NullDereference
                else if isaInstruction UN then
                  if isCxxDtor UN then Done (Dtors ++ [IU]) else Done Dtors
                else Done Dtors
            end
        end
      else Done Dtors
  end.

Fixpoint copiedDtorLoop (F : Function) (I : Node) (us : list Value) (Dtors : list Value)
  : Outcome (list Value) :=
  match us with
  | [] => Done Dtors
  | IU :: us' =>
      do Dtors' <- copiedDtorStep F I Dtors IU;
      copiedDtorLoop F I us' Dtors'
  end.

Definition findImmediateCopiedDtors (F : Function) (h : Value) (I : Node)
  : Outcome (list Value) :=
  copiedDtorLoop F I (users F h) [].

(** *** canCtorBeElided (source lines 131-195) *)

(** The loop over [ImmDtors] for one consumer [I] (lines 170-178); the
    result is the final [CanBeElided]. *)
Fixpoint dtorLoop (F : Function) (Ctor I : Value) (ImmDtors : list Value)
    (CanBeElided : bool) : Outcome bool :=
  match ImmDtors with
  | [] => Done CanBeElided
  | Dtor :: rest =>
      if negb (isPotentiallyReachable F Ctor Dtor) then Abort DtorNotReached
      else
        let CanBeElided := isPotentiallyReachable F Dtor I in
        if negb CanBeElided then Done CanBeElided
        else dtorLoop F Ctor I rest CanBeElided
  end.

(** [cast<Instruction>] of every consumer of a trivial instruction. *)
Fixpoint castInstructions (F : Function) (us : list Value) : Outcome (list Value) :=
  match us with
  | [] => Done []
  | IU :: us' =>
      match getNode F IU with
      | None => Abort UseAfterErase
      | Some n =>
          if isaInstruction n then
            do r <- castInstructions F us'; Done (IU :: r)
          else Abort InvalidCast
      end
  end.

(** The body of the loop over the consumers of [AllocFrom] (lines 152-182):
    [None] is [return false], [Some l] goes on with [InstList = l]. *)
Definition userStep (F : Function) (Ctor : Value) (ImmDtors : list Value)
    (InstList : list Value) (U : Value) : Outcome (option (list Value)) :=
  match getNode F U with
  | None => Abort UseAfterErase
  | Some UI =>
      if negb (isaInstruction UI) then Done None
      else if Nat.eqb U Ctor then Done (Some InstList)
      else if isTrivialInstruction F U UI then
        do IUs <- castInstructions F (users F U);
        Done (Some (InstList ++ [U] ++ IUs))
      else if isPotentiallyReachable F Ctor U then
        do CanBeElided <- dtorLoop F Ctor U ImmDtors false;
        if negb CanBeElided then Done None else Done (Some InstList)
      else Done (Some InstList)
  end.

Fixpoint userLoop (F : Function) (Ctor : Value) (ImmDtors : list Value)
    (us : list Value) (InstList : list Value) : Outcome (option (list Value)) :=
  match us with
  | [] => Done (Some InstList)
  | U :: us' =>
      do r <- userStep F Ctor ImmDtors InstList U;
      match r with
      | None => Done None
      | Some InstList' => userLoop F Ctor ImmDtors us' InstList'
      end
  end.

Definition getOperand (n : Node) (i : nat) : Outcome Value :=
  match operands n !! i with
  | Some v => Done v
  | None => Abort NullDereference
  end.

Definition isaAlloca (F : Function) (v : Value) : bool :=
  match getNode F v with
  | Some n => isaAllocaInst n
  | None => false
  end.

Definition canCtorBeElided (P : Pass) (F : Function) (Ctor : Value)
  : Outcome (bool * Pass) :=
  match getNode F Ctor with
  | None => Abort UseAfterErase
  | Some C =>
      do op0 <- getOperand C 0;
      do op1 <- getOperand C 1;
      let AllocTo := GetUnderlyingObject F op0 in
      let AllocFrom := GetUnderlyingObject F op1 in
      let ImmediateFrom := op1 in
      if negb (isaAlloca F AllocTo) || negb (isaAlloca F AllocFrom) then Done (false, P)
      else
        match getNode F ImmediateFrom with
        | None => Abort UseAfterErase
        | Some IF =>
            if negb (isaInstruction IF) then Abort InvalidCast
            else
              do ImmDtors <- findImmediateCopiedDtors F ImmediateFrom IF;
              do r <- userLoop F Ctor ImmDtors (users F AllocFrom) [];
              match r with
              | None => Done (false, P)
              | Some InstList =>
                  Done (true, {| DeadInstList := InstList;
                                 From := Some AllocFrom;
                                 To := Some AllocTo |})
              end
        end
  end.

(** *** runOnFunction (source lines 89-128) *)

(** The [while] loop of lines 106-113; [stack] is [DeadInstList] read from
    its back. *)
Fixpoint eraseDeadInsts (stack : list Value) (F : Function) : Outcome Function :=
  match stack with
  | [] => Done F
  | EI :: rest =>
      match getNode F EI with
      | None => Abort UseAfterErase
      | Some _ =>
          if negb (getNumUses F EI =? 0) then Abort ErasedHasUses
          else eraseDeadInsts rest (eraseFromParent F EI)
      end
  end.

(** Lines 117-119. *)
Definition replaceAndErase (F : Function) (from to : Value) : Function :=
  let F' := replaceAllUsesWith F from to in
  if getNumUses F' from =? 0 then eraseFromParent F' from else F'.

(** The body of the loop over [CtorVec] (lines 103-122). *)
Definition processCtor (st : Function * Pass * bool) (Call : Value)
  : Outcome (Function * Pass * bool) :=
  let '(F, P, Changed) := st in
  do r <- canCtorBeElided P F Call;
  let '(ok, P1) := r in
  if ok then
    let Dead := DeadInstList P1 ++ [Call] in
    do F1 <- eraseDeadInsts (rev Dead) F;
    let P2 := {| DeadInstList := []; From := From P1; To := To P1 |} in
    match From P2, To P2 with
    | Some from, Some to => Done (replaceAndErase F1 from to, P2, true)
    | _, _ => Abort NullDereference
    end
  else Done (F, P1, Changed).

Fixpoint processCtors (st : Function * Pass * bool) (CtorVec : list Value)
  : Outcome (Function * Pass * bool) :=
  match CtorVec with
  | [] => Done st
  | Call :: rest =>
      do st' <- processCtor st Call;
      processCtors st' rest
  end.

Definition runOnFunction (P : Pass) (F : Function) : Outcome (Function * Pass * bool) :=
  if skipFunction F then Done (F, P, false)
  else processCtors (F, P, false) (collectCtors F).

(** *** Notions used to state the properties *)

(** The consumers that the loop of [findImmediateCopiedDtors] reports when
    the queried instruction is not an intrinsic call: destructor calls, and
    casts whose single consumer is a destructor call that is not an
    intrinsic. *)
Definition reportedConsumer (F : Function) (IU : Value) : bool :=
  match getNode F IU with
  | Some DI =>
      isaInstruction DI &&
      (isCxxDtor DI ||
       ((isaBitCastInst DI || isaGetElementPtrInst DI) && hasOneUse F IU &&
        match users F IU with
        | U :: _ =>
            match getNode F U with
            | Some UN => negb (isaIntrinsicInst UN) && isaInstruction UN && isCxxDtor UN
            | None => false
            end
        | [] => false
        end))
  | None => false
  end.

Definition isTrivialAt (F : Function) (U : Value) : bool :=
  match getNode F U with
  | Some n => isTrivialInstruction F U n
  | None => false
  end.

(** The trivial consumers among [us], other than the candidate, each
    followed by its own consumers. *)
Definition deferredInsts (F : Function) (Ctor : Value) (us : list Value) : list Value :=
  flat_map (fun U => U :: users F U)
           (List.filter (fun U => negb (Nat.eqb U Ctor) && isTrivialAt F U) us).

(** No candidate of [F] passes the legality check: a run of the pass has
    nothing left to do. *)
Definition fixedPoint (P : Pass) (F : Function) : Prop :=
  forall c, c ∈ collectCtors F -> canCtorBeElided P F c = Done (false, P).

End CXXCopyElision.

(** A sequence of erasures in which every instruction is live and without
    consumers at the moment it is erased. *)
Inductive Erasures : Function -> list Value -> Function -> Prop :=
| Erasures_nil F : Erasures F [] F
| Erasures_cons F EI rest F' :
    is_Some (getNode F EI) ->
    getNumUses F EI = 0 ->
    Erasures (eraseFromParent F EI) rest F' ->
    Erasures F (EI :: rest) F'.

(** The classification of section 4.3 in the spec's words: a destructor
    call, a lifetime marker, or a reinterpretation all of whose consumers
    are trivial in turn. *)
Inductive TrivialAsSpecified (F : Function) : Value -> Prop :=
| trivial_dtor h n :
    getNode F h = Some n -> isCxxDtor n = true -> TrivialAsSpecified F h
| trivial_lifetime h n :
    getNode F h = Some n -> isLifetimeStartOrEnd n = true -> TrivialAsSpecified F h
| trivial_reinterpretation h n :
    getNode F h = Some n ->
    isaBitCastInst n || isaGetElementPtrInst n = true ->
    (forall u, u ∈ users F h -> TrivialAsSpecified F u) ->
    TrivialAsSpecified F h.

(** ** A reference implementation of the analyses *)

(** Modelled from the spec: [GetUnderlyingObject] (ValueTracking) is not
    among the sources.  Section 4.1: follow a chain of reinterpretation and
    offset operations back to its origin and stop at the first instruction
    that is not such an operation. *)
Fixpoint stripCasts (fuel : nat) (F : Function) (v : Value) : Value :=
  match fuel with
  | 0 => v
  | S fuel' =>
      match getNode F v with
      | Some n =>
          if isaBitCastInst n || isaGetElementPtrInst n then
            match operands n with
            | o :: _ => stripCasts fuel' F o
            | [] => v
            end
          else v
      | None => v
      end
  end.

Definition resolveStorage (F : Function) (v : Value) : Value :=
  stripCasts (length (arena F)) F v.

Fixpoint findBlock (i : nat) (bs : list BasicBlock) (v : Value) : option (nat * BasicBlock) :=
  match bs with
  | [] => None
  | B :: bs' =>
      if existsb (Nat.eqb v) (insts B) then Some (i, B) else findBlock (S i) bs' v
  end.

(** Scan the block from [A] on and see whether [B] is met. *)
Fixpoint metFrom (A B : Value) (l : list Value) : bool :=
  match l with
  | [] => false
  | x :: l' => if Nat.eqb x A then existsb (Nat.eqb B) l else metFrom A B l'
  end.

Fixpoint blockReached (fuel : nat) (bs : list BasicBlock) (work : list nat) (target : nat)
  : bool :=
  match fuel with
  | 0 => false
  | S fuel' =>
      existsb (fun b => Nat.eqb b target ||
                        match bs !! b with
                        | Some B => blockReached fuel' bs (succs B) target
                        | None => false
                        end) work
  end.

(** Modelled from the spec: [isPotentiallyReachable] (Analysis/CFG) is not
    among the sources.  Glossary: existence of a control-flow path from one
    program point to another within the same function, including through
    loops. *)
Definition controlFlowReaches (F : Function) (A B : Value) : bool :=
  match findBlock 0 (blocks F) A, findBlock 0 (blocks F) B with
  | Some (ba, BA), Some (bb, _) =>
      (Nat.eqb ba bb && metFrom A B (insts BA))
      || blockReached (length (blocks F)) (blocks F) (succs BA) bb
  | _, _ => false
  end.

(** Modelled from the spec: [onlyUsedByLifetimeMarkers] (ValueTracking) is
    not among the sources.  Section 8, trivial-chain absorption: the value
    is only ever consumed by lifetime markers. *)
Definition usedByLifetimeMarkersOnly (F : Function) (v : Value) : bool :=
  forallb (fun u => match getNode F u with
                    | Some n => isLifetimeStartOrEnd n
                    | None => false
                    end) (users F v).

(** Modelled from the spec: [skipFunction] belongs to the pass manager
    (section 1, out of scope); no function is skipped here. *)
#[export] Instance referenceAnalyses : Analyses := {|
  skipFunction := fun _ => false;
  GetUnderlyingObject := resolveStorage;
  isPotentiallyReachable := controlFlowReaches;
  onlyUsedByLifetimeMarkers := usedByLifetimeMarkersOnly |}.

Definition emptyPass : Pass := {| DeadInstList := []; From := None; To := None |}.

(** ** Sample functions *)

Definition alloca : Node := mkNode AllocaInst [].
Definition declaration : Node := mkNode NotInstruction [].
Definition ctorCall (to from callee : Value) : Node :=
  mkNode (CallBase true None 1) [to; from; callee].
Definition dtorCall (obj callee : Value) : Node :=
  mkNode (CallBase true None 1) [obj; callee].
Definition lifetimeEndCall (size obj callee : Value) : Node :=
  mkNode (CallBase false (Some lifetime_end) 1) [size; obj; callee].
Definition plainUse (obj : Value) : Node := mkNode OtherInst [obj].
Definition branch : Node := mkNode OtherInst [].

(** [a = alloca; b = alloca; construct(b, a); destroy(a); use(b)], the last
    instruction being any [N]; handles 5 and 6 are the callees. *)
Definition straightLine (N : Node) : Function :=
  {| arena := [Some alloca; Some alloca; Some (ctorCall 1 0 5); Some (dtorCall 0 6);
               Some N; Some declaration; Some declaration];
     blocks := [mkBlock [0; 1; 2; 3; 4] []] |}.

Definition straightLineElided (N : Node) : Function :=
  {| arena := [None; Some alloca; None; None;
               Some N; Some declaration; Some declaration];
     blocks := [mkBlock [1; 4] []] |}.

(** [a = alloca; b = alloca; construct(b, a); use(a)]: the source is used
    after the copy and never destroyed. *)
Definition usedAfterCopy : Function :=
  {| arena := [Some alloca; Some alloca; Some (ctorCall 1 0 4); Some (plainUse 0);
               Some declaration];
     blocks := [mkBlock [0; 1; 2; 3] []] |}.

(** [a = alloca; b = alloca; construct(b, a); destroy(a); lifetime.end(8, a)];
    handle 5 is the size constant. *)
Definition usedAfterDestroy : Function :=
  {| arena := [Some alloca; Some alloca; Some (ctorCall 1 0 6); Some (dtorCall 0 7);
               Some (lifetimeEndCall 5 0 8);
               Some declaration; Some declaration; Some declaration; Some declaration];
     blocks := [mkBlock [0; 1; 2; 3; 4] []] |}.

(** [a = alloca i8; lifetime.end(8, a)]; handle 2 is the size constant and
    handle 3 the intrinsic's declaration. *)
Definition lifetimeOnAlloca : Function :=
  {| arena := [Some alloca; Some (lifetimeEndCall 2 0 3); Some declaration;
               Some declaration];
     blocks := [mkBlock [0; 1] []] |}.

(** [a = alloca; c = bitcast a; lifetime.end(8, c)] *)
Definition lifetimeOnCast : Function :=
  {| arena := [Some alloca; Some (mkNode BitCastInst [0]); Some (lifetimeEndCall 3 1 4);
               Some declaration; Some declaration];
     blocks := [mkBlock [0; 1; 2] []] |}.

(** The source is destroyed on both arms of a branch and its lifetime ends
    after the join; the copy is made on one arm only.
<<
   entry: a = alloca; b = alloca; br then, else
   then:  construct(b, a); destroy(a); br exit
   else:  destroy(a); br exit
   exit:  lifetime.end(8, a)
>>
    Handles 9, 10, 11, 12: the size constant and the three callees. *)
Definition destroyedOnBothArms : Function :=
  {| arena := [Some alloca; Some alloca; Some branch;
               Some (ctorCall 1 0 10); Some (dtorCall 0 11); Some branch;
               Some (dtorCall 0 11); Some branch;
               Some (lifetimeEndCall 9 0 12);
               Some declaration; Some declaration; Some declaration; Some declaration];
     blocks := [mkBlock [0; 1; 2] [1; 2];
                mkBlock [3; 4; 5] [3];
                mkBlock [6; 7] [3];
                mkBlock [8] []] |}.

(** [a = alloca; b = alloca; r = construct(b, a); destroy(a); use(r)]: the
    constructor returns a value that is used. *)
Definition ctorResultUsed : Function :=
  {| arena := [Some alloca; Some alloca; Some (ctorCall 1 0 5); Some (dtorCall 0 6);
               Some (plainUse 2); Some declaration; Some declaration];
     blocks := [mkBlock [0; 1; 2; 3; 4] []] |}.

(** [construct(b, p)] with [p] a parameter of the function (handle 0). *)
Definition copyOfParameter : Function :=
  {| arena := [Some declaration; Some alloca; Some (ctorCall 1 0 3); Some declaration];
     blocks := [mkBlock [1; 2] []] |}.

(** [a] is copied twice, into [b] and into [c], then [a] and [c] are
    destroyed. *)
Definition copiedTwice : Function :=
  {| arena := [Some alloca; Some alloca; Some alloca;
               Some (ctorCall 1 0 7); Some (ctorCall 2 0 7);
               Some (dtorCall 0 8); Some (dtorCall 2 8);
               Some declaration; Some declaration];
     blocks := [mkBlock [0; 1; 2; 3; 4; 5; 6] []] |}.

(** ** Notions used to state further properties *)

Definition isLive (F : Function) (v : Value) : bool :=
  match getNode F v with Some _ => true | None => false end.

(** Every operand of a live node is live. *)
Definition noDanglingOperands (F : Function) : bool :=
  forallb (fun o => match o with
                    | Some n => forallb (isLive F) (operands n)
                    | None => true
                    end) (arena F).

(** The allocas are of fixed size: they take no operand. *)
Definition allocasTakeNoOperand (F : Function) : bool :=
  forallb (fun o => match o with
                    | Some n => negb (isaAllocaInst n) || (length (operands n) =? 0)
                    | None => true
                    end) (arena F).

(** The handle names a call that the collector takes for a candidate. *)
Definition isCandidateAt (F : Function) (h : Value) : bool :=
  match getNode F h with
  | Some n => isaCallBase n && isCxxCMCtor n
  | None => false
  end.

(** A consumer at which [findImmediateCopiedDtors], queried for an
    instruction that is not an intrinsic, reads through the null [II]: an
    instruction that is no destructor call, is a cast with one use, and has
    an intrinsic for its consumer. *)
Definition nullReadConsumer (F : Function) (IU : Value) : bool :=
  match getNode F IU with
  | Some DI =>
      isaInstruction DI && negb (isCxxDtor DI) &&
      ((isaBitCastInst DI || isaGetElementPtrInst DI) && hasOneUse F IU) &&
      match users F IU with
      | U :: _ =>
          match getNode F U with
          | Some UN => isaIntrinsicInst UN
          | None => false
          end
      | [] => false
      end
  | None => false
  end.

(** The consumers reported when the queried instruction [I] is itself an
    intrinsic call: the destructor calls, and every instruction if [I] is a
    lifetime-end marker. *)
Definition reportedOfIntrinsic (F : Function) (I : Node) (IU : Value) : bool :=
  match getNode F IU with
  | Some DI => isaInstruction DI && (isCxxDtor DI || isLifetimeEnd I)
  | None => false
  end.

(** What the loop of [canCtorBeElided] requires of one consumer [U] of the
    source allocation for not returning [false] at it. *)
Definition consumerAccepted `{An : Analyses} (F : Function) (Ctor : Value)
    (ImmDtors : list Value) (U : Value) : Prop :=
  exists UI,
    getNode F U = Some UI /\ isaInstruction UI = true /\
    (U = Ctor \/
     (isTrivialInstruction F U UI = true /\
      forall IU, IU ∈ users F U ->
        exists n, getNode F IU = Some n /\ isaInstruction n = true) \/
     (isTrivialInstruction F U UI = false /\
      (isPotentiallyReachable F Ctor U = false \/
       (ImmDtors <> [] /\
        forall d, d ∈ ImmDtors ->
          isPotentiallyReachable F Ctor d = true /\
          isPotentiallyReachable F d U = true)))).

(** [G] holds nothing but instructions of [F]: the arena has kept its size,
    and a node live in [G] was live in [F] with the same opcode and the same
    number of operands. *)
Definition keepsInstructions (F G : Function) : Prop :=
  length (arena G) = length (arena F) /\
  forall v n', getNode G v = Some n' ->
    exists n, getNode F v = Some n /\ opcode n' = opcode n /\
              length (operands n') = length (operands n).

(** [G] has as many blocks as [F], each holding a subsequence of the
    instructions it held. *)
Definition keepsBlockOrder (F G : Function) : Prop :=
  Forall2 (fun B B' => sublist (insts B') (insts B)) (blocks F) (blocks G).

(** [a = alloca; b = alloca; construct(b, a)]: the source is consumed by
    the copy alone. *)
Definition copyOnly : Function :=
  {| arena := [Some alloca; Some alloca; Some (ctorCall 1 0 3); Some declaration];
     blocks := [mkBlock [0; 1; 2] []] |}.

(** ** The archive test program

    [lldb/.../functionalities/archives/a.c]: two functions over the global
    [__a_global], which is passed in as the state they read.  An [int] is a
    [Z] within the 32-bit signed range; an overflowing signed operation is
    undefined and yields [None]. *)
Module ArchiveTest.

Definition INT_MIN : Z := -2147483648.
Definition INT_MAX : Z := 2147483647.

Definition isInt (z : Z) : bool := (INT_MIN <=? z)%Z && (z <=? INT_MAX)%Z.

Definition checked (z : Z) : option Z := if isInt z then Some z else None.

(** The initial value of [__a_global]. *)
Definition a_global_init : Z := 1.

Definition a (a_global arg : Z) : option Z :=
  let result := checked (arg + a_global) in
  result.

Definition aa (a_global arg1 : Z) : option Z :=
  let result1 := checked (arg1 - a_global) in
  result1.

End ArchiveTest.

(** The handle stands in no block of the function. *)
Definition notInBlocks (F : Function) (v : Value) : Prop :=
  forall B, B ∈ blocks F -> v ∉ insts B.

(** * Properties *)

(** ** The call classifier *)

Lemma isCxxCMCtor_iff (CB : Node) :
  isCxxCMCtor CB = true <-> isCxxCMCtorOrDtor_tag CB = true /\ getNumArgOperands CB = 2.
Proof.
  unfold isCxxCMCtor. rewrite andb_true_iff, Nat.eqb_eq. tauto.
Qed.

Lemma isCxxDtor_CB_iff (CB : Node) :
  isCxxDtor_CB CB = true <-> isCxxCMCtorOrDtor_tag CB = true /\ getNumArgOperands CB = 1.
Proof.
  unfold isCxxDtor_CB. rewrite andb_true_iff, Nat.eqb_eq. tauto.
Qed.

Lemma ctor_dtor_exclusive (CB : Node) :
  isCxxDtor_CB CB = true -> isCxxCMCtor CB = false.
Proof.
  rewrite isCxxDtor_CB_iff. intros [_ Hn].
  destruct (isCxxCMCtor CB) eqn:E; [|reflexivity].
  apply isCxxCMCtor_iff in E. lia.
Qed.

Lemma visit_elem (F : Function) (l acc : list Value) (x : Value) :
  x ∈ fold_left (visit F) l acc ->
  x ∈ acc \/ exists n, getNode F x = Some n /\ isaCallBase n = true /\ isCxxCMCtor n = true.
Proof.
  revert acc. induction l as [|h l IH]; simpl; intros acc Hx; [tauto|].
  apply IH in Hx. destruct Hx as [Hx|Hx]; [|tauto].
  unfold visit in Hx. destruct (getNode F h) as [n|] eqn:Hn; [|tauto].
  destruct (isaCallBase n) eqn:Hc; [|tauto].
  unfold visitCallBase in Hx. destruct (isCxxCMCtor n) eqn:Hk; [|tauto].
  apply elem_of_app in Hx. destruct Hx as [Hx|Hx]; [tauto|].
  apply list_elem_of_singleton in Hx. subst x. right. eauto.
Qed.

(** Every collected candidate is a live call classified copy/move-construct. *)
Lemma collectCtors_elem (F : Function) (x : Value) :
  x ∈ collectCtors F ->
  exists n, getNode F x = Some n /\ isaCallBase n = true /\ isCxxCMCtor n = true.
Proof.
  unfold collectCtors.
  assert (G : forall bs acc,
    x ∈ fold_left (fun CtorVec BB => fold_left (visit F) (insts BB) CtorVec) bs acc ->
    x ∈ acc \/ exists n, getNode F x = Some n /\ isaCallBase n = true /\ isCxxCMCtor n = true).
  { induction bs as [|B bs IH]; simpl; intros acc Hx; [tauto|].
    apply IH in Hx. destruct Hx as [Hx|Hx]; [|tauto].
    now apply visit_elem in Hx. }
  intros Hx. apply G in Hx. destruct Hx as [Hx|Hx]; [|exact Hx].
  now apply elem_of_nil in Hx.
Qed.

(** C4.  A call is classified copy/move-construct exactly when it carries
    the constructor/destructor tag and has two arguments, and destruct
    exactly when it carries the tag and has one argument.  A tagged call
    with one argument is a destructor call, is never appended to the
    candidate list and is not among the candidates collected from any
    function.  The classification, and with it the collection of
    candidates, reads nothing but the tag and the number of arguments, so
    tagged two-argument calls are treated alike whether they copy or move. *)
Theorem classify_tag_and_arity (CB : Node) :
  (classify CB = CopyOrMoveConstruct <->
     isCxxCMCtorOrDtor_tag CB = true /\ getNumArgOperands CB = 2) /\
  (classify CB = Destruct <->
     isCxxCMCtorOrDtor_tag CB = true /\ getNumArgOperands CB = 1) /\
  (isCxxCMCtorOrDtor_tag CB = true /\ getNumArgOperands CB = 1 ->
     classify CB = Destruct /\ isCxxCMCtor CB = false /\
     (forall h CtorVec, visitCallBase CB h CtorVec = CtorVec) /\
     (forall F h, getNode F h = Some CB -> h ∉ collectCtors F)) /\
  (forall CB' : Node,
     isCxxCMCtorOrDtor_tag CB' = isCxxCMCtorOrDtor_tag CB ->
     getNumArgOperands CB' = getNumArgOperands CB ->
     classify CB' = classify CB /\
     forall h CtorVec, visitCallBase CB' h CtorVec = visitCallBase CB h CtorVec).
Proof.
  assert (Hc : classify CB = CopyOrMoveConstruct <-> isCxxCMCtor CB = true).
  { unfold classify. destruct (isCxxCMCtor CB); [tauto|].
    destruct (isCxxDtor_CB CB); split; discriminate. }
  assert (Hd : classify CB = Destruct <-> isCxxDtor_CB CB = true).
  { unfold classify. destruct (isCxxCMCtor CB) eqn:E.
    - split; [discriminate|]. intros H. apply ctor_dtor_exclusive in H. congruence.
    - destruct (isCxxDtor_CB CB); split; auto; discriminate. }
  split; [|split; [|split]].
  - rewrite Hc. apply isCxxCMCtor_iff.
  - rewrite Hd. apply isCxxDtor_CB_iff.
  - intros H. apply isCxxDtor_CB_iff in H.
    pose proof (ctor_dtor_exclusive CB H) as Hn.
    split; [now apply Hd|]. split; [exact Hn|]. split.
    + intros h CtorVec. unfold visitCallBase. now rewrite Hn.
    + intros F h Hh Hin. apply collectCtors_elem in Hin.
      destruct Hin as (n & Hn' & _ & Hk). congruence.
  - intros CB' Ht Hn. split.
    + unfold classify, isCxxCMCtor, isCxxDtor_CB. now rewrite Ht, Hn.
    + intros h CtorVec. unfold visitCallBase, isCxxCMCtor. now rewrite Ht, Hn.
Qed.

Section Legality.
Context `{An : Analyses}.

Lemma bind_Done {A B} (m : Outcome A) (k : A -> Outcome B) (b : B) :
  bind m k = Done b -> exists a, m = Done a /\ k a = Done b.
Proof. destruct m as [a|f]; simpl; [eauto|discriminate]. Qed.

(** ** The trivial-instruction classifier *)

(** What the classifier computes.  An instruction is trivial exactly when
    it is a destructor call that is not a non-lifetime intrinsic, or a bitcast or
    offset operation whose consumers pass [onlyUsedByLifetimeMarkers].  A
    lifetime marker is trivial only if it is itself a destructor call, and a
    non-lifetime intrinsic call is never trivial. *)
Lemma isTrivialInstruction_iff (F : Function) (h : Value) (I : Node) :
  (isTrivialInstruction F h I = true <->
     (isCxxDtor I = true /\ (isaIntrinsicInst I = true -> isLifetimeStartOrEnd I = true)) \/
     ((isaBitCastInst I = true \/ isaGetElementPtrInst I = true) /\
      onlyUsedByLifetimeMarkers F h = true)) /\
  (isLifetimeStartOrEnd I = true -> isTrivialInstruction F h I = isCxxDtor I) /\
  (isaIntrinsicInst I = true -> isLifetimeStartOrEnd I = false ->
     isTrivialInstruction F h I = false).
Proof.
  unfold isTrivialInstruction.
  split; [|split].
  - destruct (isaIntrinsicInst I) eqn:Hi; simpl.
    + destruct (isLifetimeStartOrEnd I) eqn:Hl; simpl.
      * destruct (isCxxDtor I); [tauto|].
        destruct (isaBitCastInst I) eqn:Hb, (isaGetElementPtrInst I) eqn:Hg;
          destruct (onlyUsedByLifetimeMarkers F h); simpl; intuition congruence.
      * split; [discriminate|].
        intros [[_ H]|[[H|H] _]].
        -- now specialize (H eq_refl).
        -- unfold isaIntrinsicInst, isaBitCastInst in *. destruct (opcode I); discriminate.
        -- unfold isaIntrinsicInst, isaGetElementPtrInst in *. destruct (opcode I); discriminate.
    + destruct (isCxxDtor I).
      * split; [|reflexivity]. intros _. left. split; [reflexivity|discriminate].
      * destruct (isaBitCastInst I), (isaGetElementPtrInst I),
          (onlyUsedByLifetimeMarkers F h); simpl; intuition congruence.
  - intros Hl. rewrite Hl, andb_false_r.
    destruct (isCxxDtor I); [reflexivity|].
    unfold isLifetimeStartOrEnd, getIntrinsicID, isaBitCastInst, isaGetElementPtrInst in *.
    destruct (opcode I); try discriminate. reflexivity.
  - intros Hi Hl. now rewrite Hi, Hl.
Qed.

(** ** The immediate destructors *)

Lemma copiedDtorLoop_reported (F : Function) (I : Node) (us acc Dtors : list Value) :
  isaIntrinsicInst I = false ->
  copiedDtorLoop F I us acc = Done Dtors ->
  Dtors = acc ++ List.filter (reportedConsumer F) us.
Proof.
  intros HI. revert acc Dtors.
  induction us as [|IU us IH]; intros acc Dtors H; simpl in H.
  - injection H as <-. simpl. now rewrite app_nil_r.
  - apply bind_Done in H. destruct H as [acc' [Hs H]].
    apply IH in H. subst Dtors. cbn [List.filter].
    unfold copiedDtorStep in Hs. rewrite HI in Hs.
    assert (HR : reportedConsumer F IU =
                 match getNode F IU with
                 | Some DI =>
                     isaInstruction DI &&
                     (isCxxDtor DI ||
                      ((isaBitCastInst DI || isaGetElementPtrInst DI) && hasOneUse F IU &&
                       match users F IU with
                       | U :: _ =>
                           match getNode F U with
                           | Some UN =>
                               negb (isaIntrinsicInst UN) && isaInstruction UN && isCxxDtor UN
                           | None => false
                           end
                       | [] => false
                       end))
                 | None => false
                 end) by reflexivity.
    rewrite HR. clear HR.
    destruct (getNode F IU) as [DI|]; [|discriminate].
    destruct (isaInstruction DI); cbn [negb andb] in *.
    2:{ now injection Hs as <-. }
    destruct (isCxxDtor DI); cbn [orb] in *.
    { injection Hs as <-. now rewrite <- app_assoc. }
    destruct ((isaBitCastInst DI || isaGetElementPtrInst DI) && hasOneUse F IU);
      cbn [andb] in *.
    2:{ now injection Hs as <-. }
    destruct (users F IU) as [|U rest]; [discriminate|].
    destruct (getNode F U) as [UN|]; [|discriminate].
    destruct (isaIntrinsicInst UN); [discriminate|]. cbn [negb andb].
    destruct (isaInstruction UN); cbn [andb].
    2:{ now injection Hs as <-. }
    destruct (isCxxDtor UN); injection Hs as <-; [now rewrite <- app_assoc|reflexivity].
Qed.

(** What the function returns for an instruction that is not an intrinsic
    call, whenever it returns: lifetime-end markers play no part in it. *)
Lemma findImmediateCopiedDtors_reported (F : Function) (h : Value) (I : Node)
    (Dtors : list Value) :
  isaIntrinsicInst I = false ->
  findImmediateCopiedDtors F h I = Done Dtors ->
  Dtors = List.filter (reportedConsumer F) (users F h).
Proof.
  intros HI H. exact (copiedDtorLoop_reported F I _ [] _ HI H).
Qed.

(** ** The legality check, one consumer at a time *)

Lemma dtorLoop_true (F : Function) (Ctor I : Value) (Dtors : list Value) (b : bool) :
  dtorLoop F Ctor I Dtors b = Done true <->
  (Dtors = [] -> b = true) /\
  (forall d, d ∈ Dtors ->
     isPotentiallyReachable F Ctor d = true /\ isPotentiallyReachable F d I = true).
Proof.
  revert b. induction Dtors as [|d ds IH]; intros b; simpl.
  - split.
    + intros [= ->]. split; [reflexivity|]. intros d Hd. now apply elem_of_nil in Hd.
    + intros [H _]. now rewrite H.
  - destruct (isPotentiallyReachable F Ctor d) eqn:Hc; simpl.
    + destruct (isPotentiallyReachable F d I) eqn:Hr; simpl.
      * rewrite IH. split.
        -- intros [_ H]. split; [discriminate|].
           intros x Hx. apply elem_of_cons in Hx. destruct Hx as [->|Hx]; auto.
        -- intros [_ H]. split; [reflexivity|].
           intros x Hx. apply H. apply elem_of_cons. tauto.
      * split; [discriminate|]. intros [_ H].
        destruct (H d) as [_ H']; [apply elem_of_cons; tauto|congruence].
    + split; [discriminate|]. intros [_ H].
      destruct (H d) as [H' _]; [apply elem_of_cons; tauto|congruence].
Qed.

Lemma dtorLoop_false (F : Function) (Ctor I : Value) (Dtors : list Value) (b : bool) :
  (forall d, d ∈ Dtors -> isPotentiallyReachable F Ctor d = true) ->
  dtorLoop F Ctor I Dtors b = Done false <->
  (Dtors = [] /\ b = false) \/
  (exists d, d ∈ Dtors /\ isPotentiallyReachable F d I = false).
Proof.
  revert b. induction Dtors as [|d ds IH]; intros b Hall; simpl.
  - split.
    + intros [= ->]. tauto.
    + intros [[_ ->]|[d [Hd _]]]; [reflexivity|]. now apply elem_of_nil in Hd.
  - rewrite (Hall d) by (apply elem_of_cons; tauto). simpl.
    destruct (isPotentiallyReachable F d I) eqn:Hr; simpl.
    + rewrite IH by (intros x Hx; apply Hall, elem_of_cons; tauto).
      split.
      * intros [[_ H]|[x [Hx Hx']]]; [discriminate|].
        right. exists x. split; [apply elem_of_cons; tauto|exact Hx'].
      * intros [[H _]|[x [Hx Hx']]]; [discriminate|].
        apply elem_of_cons in Hx. destruct Hx as [->|Hx]; [congruence|].
        right. eauto.
    + split; [|reflexivity]. intros _. right. exists d.
      split; [apply elem_of_cons; tauto|exact Hr].
Qed.

(** What an accepted candidate has gone through. *)
Lemma canCtorBeElided_true (P P' : Pass) (F : Function) (Ctor : Value) :
  canCtorBeElided P F Ctor = Done (true, P') ->
  exists C op0 op1 IF ImmDtors InstList,
    getNode F Ctor = Some C /\
    operands C !! 0 = Some op0 /\ operands C !! 1 = Some op1 /\
    isaAlloca F (GetUnderlyingObject F op0) = true /\
    isaAlloca F (GetUnderlyingObject F op1) = true /\
    getNode F op1 = Some IF /\
    findImmediateCopiedDtors F op1 IF = Done ImmDtors /\
    userLoop F Ctor ImmDtors (users F (GetUnderlyingObject F op1)) [] = Done (Some InstList) /\
    P' = {| DeadInstList := InstList;
            From := Some (GetUnderlyingObject F op1);
            To := Some (GetUnderlyingObject F op0) |}.
Proof.
  unfold canCtorBeElided, getOperand.
  destruct (getNode F Ctor) as [C|] eqn:HC; [|discriminate].
  destruct (operands C !! 0) as [op0|] eqn:H0; simpl; [|discriminate].
  destruct (operands C !! 1) as [op1|] eqn:H1; simpl; [|discriminate].
  destruct (isaAlloca F (GetUnderlyingObject F op0)) eqn:Ha0; simpl; [|discriminate].
  destruct (isaAlloca F (GetUnderlyingObject F op1)) eqn:Ha1; simpl; [|discriminate].
  destruct (getNode F op1) as [IF|] eqn:HIF; [|discriminate].
  destruct (isaInstruction IF); simpl; [|discriminate].
  intros H. apply bind_Done in H. destruct H as [ImmDtors [Hd H]].
  apply bind_Done in H. destruct H as [r [Hl H]].
  destruct r as [InstList|]; [|discriminate].
  injection H as <-.
  exists C, op0, op1, IF, ImmDtors, InstList. repeat split; auto.
Qed.

(** A rejection leaves the members of the pass as they were. *)
Lemma canCtorBeElided_false (P P' : Pass) (F : Function) (Ctor : Value) :
  canCtorBeElided P F Ctor = Done (false, P') -> P' = P.
Proof.
  unfold canCtorBeElided, getOperand.
  destruct (getNode F Ctor) as [C|]; [|discriminate].
  destruct (operands C !! 0) as [op0|]; simpl; [|discriminate].
  destruct (operands C !! 1) as [op1|]; simpl; [|discriminate].
  destruct (negb _ || negb _); [congruence|].
  destruct (getNode F op1) as [IF|]; [|discriminate].
  destruct (negb (isaInstruction IF)); [discriminate|].
  intros H. apply bind_Done in H. destruct H as [ImmDtors [_ H]].
  apply bind_Done in H. destruct H as [r [_ H]].
  destruct r; congruence.
Qed.

(** The members of the pass are written, never read, by the check. *)
Lemma canCtorBeElided_members (P Q : Pass) (F : Function) (Ctor : Value) (P' : Pass) (b : bool) :
  canCtorBeElided P F Ctor = Done (b, P') ->
  exists Q', canCtorBeElided Q F Ctor = Done (b, Q') /\ (b = true -> Q' = P').
Proof.
  unfold canCtorBeElided, getOperand.
  destruct (getNode F Ctor) as [C|]; [|discriminate].
  destruct (operands C !! 0) as [op0|]; simpl; [|discriminate].
  destruct (operands C !! 1) as [op1|]; simpl; [|discriminate].
  destruct (negb _ || negb _).
  { intros [= <- <-]. eexists; split; [reflexivity|discriminate]. }
  destruct (getNode F op1) as [IF|]; [|discriminate].
  destruct (negb (isaInstruction IF)); [discriminate|].
  destruct (findImmediateCopiedDtors F op1 IF) as [ImmDtors|]; simpl; [|discriminate].
  destruct (userLoop F Ctor ImmDtors _ []) as [[InstList|]|]; simpl; [| |discriminate].
  - intros [= <- <-]. eexists; split; [reflexivity|reflexivity].
  - intros [= <- <-]. eexists; split; [reflexivity|discriminate].
Qed.

(** A loop over the consumers that runs to its end has accepted each. *)
Lemma userLoop_accepts (F : Function) (Ctor : Value) (ImmDtors us acc l : list Value) (U : Value) :
  userLoop F Ctor ImmDtors us acc = Done (Some l) -> U ∈ us ->
  exists a a', userStep F Ctor ImmDtors a U = Done (Some a').
Proof.
  revert acc. induction us as [|x us IH]; simpl; intros acc H HU.
  - now apply elem_of_nil in HU.
  - apply bind_Done in H. destruct H as [r [Hs H]].
    destruct r as [acc'|]; [|discriminate].
    apply elem_of_cons in HU. destruct HU as [->|HU]; eauto.
Qed.

(** The step on a consumer that is neither the candidate nor trivial. *)
Lemma userStep_genuine (F : Function) (Ctor : Value) (ImmDtors InstList : list Value)
    (U : Value) (UI : Node) :
  getNode F U = Some UI -> isaInstruction UI = true -> U <> Ctor ->
  isTrivialInstruction F U UI = false ->
  userStep F Ctor ImmDtors InstList U =
    if isPotentiallyReachable F Ctor U then
      do CanBeElided <- dtorLoop F Ctor U ImmDtors false;
      if negb CanBeElided then Done None else Done (Some InstList)
    else Done (Some InstList).
Proof.
  intros HU Hi Hne Ht. unfold userStep. rewrite HU, Hi, Ht. simpl.
  now rewrite (proj2 (Nat.eqb_neq U Ctor) Hne).
Qed.

(** C1, as the code has it.  Let [U] be a consumer of the source allocation
    that is an instruction, is not the candidate and is not trivial.  If
    [U] is not reachable from the constructor it is accepted as it is.  If
    it is reachable and every instruction of [ImmDtors] is reachable from
    the constructor, as the check asserts, then [U] is accepted exactly
    when [ImmDtors] is not empty and each of its instructions reaches [U],
    and rejected exactly when [ImmDtors] is empty or one of its
    instructions cannot reach [U].  The legality check as a whole returns
    [true] only if [ImmDtors] is not empty and each of its instructions
    reaches [U]. *)
Theorem consumer_reachability_rule (F : Function) (Ctor : Value) (C : Node) (op1 : Value)
    (IF : Node) (ImmDtors : list Value) (U : Value) (UI : Node) :
  getNode F Ctor = Some C -> operands C !! 1 = Some op1 ->
  getNode F op1 = Some IF -> findImmediateCopiedDtors F op1 IF = Done ImmDtors ->
  U ∈ users F (GetUnderlyingObject F op1) ->
  getNode F U = Some UI -> isaInstruction UI = true -> U <> Ctor ->
  isTrivialInstruction F U UI = false ->
  (isPotentiallyReachable F Ctor U = false ->
     forall InstList, userStep F Ctor ImmDtors InstList U = Done (Some InstList)) /\
  (isPotentiallyReachable F Ctor U = true ->
   (forall d, d ∈ ImmDtors -> isPotentiallyReachable F Ctor d = true) ->
     (forall InstList,
        userStep F Ctor ImmDtors InstList U = Done (Some InstList) <->
        ImmDtors <> [] /\
        forall d, d ∈ ImmDtors -> isPotentiallyReachable F d U = true) /\
     (forall InstList,
        userStep F Ctor ImmDtors InstList U = Done None <->
        ImmDtors = [] \/
        exists d, d ∈ ImmDtors /\ isPotentiallyReachable F d U = false)) /\
  (isPotentiallyReachable F Ctor U = true ->
     forall P P', canCtorBeElided P F Ctor = Done (true, P') ->
       ImmDtors <> [] /\
       forall d, d ∈ ImmDtors -> isPotentiallyReachable F d U = true).
Proof.
  intros HC Hop1 HIF HD HUin HU Hi Hne Ht.
  pose proof (userStep_genuine F Ctor ImmDtors) as Hstep.
  assert (Hacc : isPotentiallyReachable F Ctor U = true -> forall InstList a',
            userStep F Ctor ImmDtors InstList U = Done (Some a') ->
            ImmDtors <> [] /\
            forall d, d ∈ ImmDtors ->
              isPotentiallyReachable F Ctor d = true /\ isPotentiallyReachable F d U = true).
  { intros Hr InstList a'. rewrite (Hstep InstList U UI HU Hi Hne Ht), Hr.
    destruct (dtorLoop F Ctor U ImmDtors false) as [[|]|] eqn:E; simpl; try discriminate.
    intros _. apply dtorLoop_true in E. destruct E as [E1 E2].
    split; [|exact E2]. intros ->. now specialize (E1 eq_refl). }
  split; [|split].
  - intros Hr InstList. now rewrite (Hstep InstList U UI HU Hi Hne Ht), Hr.
  - intros Hr Hassert. split.
    + intros InstList. split.
      * intros Hs. destruct (Hacc Hr _ _ Hs) as [Hn Hall].
        split; [exact Hn|]. intros d Hd. now apply Hall.
      * intros [Hne' Hall]. rewrite (Hstep InstList U UI HU Hi Hne Ht), Hr.
        assert (E : dtorLoop F Ctor U ImmDtors false = Done true).
        { apply dtorLoop_true. split; [intros; contradiction|]. intros d Hd. auto. }
        now rewrite E.
    + intros InstList. rewrite (Hstep InstList U UI HU Hi Hne Ht), Hr.
      pose proof (dtorLoop_false F Ctor U ImmDtors false Hassert) as E.
      assert (E' : dtorLoop F Ctor U ImmDtors false = Done false <->
                   ImmDtors = [] \/
                   exists d, d ∈ ImmDtors /\ isPotentiallyReachable F d U = false)
        by (rewrite E; tauto).
      rewrite <- E'.
      destruct (dtorLoop F Ctor U ImmDtors false) as [[|]|]; simpl;
        split; congruence.
  - intros Hr P P' Hok. apply canCtorBeElided_true in Hok.
    destruct Hok as (C' & op0 & op1' & IF' & ImmDtors' & InstList & HC' & _ & Hop1' & _ & _
                     & HIF' & HD' & HL & _).
    rewrite HC in HC'. injection HC' as <-.
    rewrite Hop1 in Hop1'. injection Hop1' as <-.
    rewrite HIF in HIF'. injection HIF' as <-.
    rewrite HD in HD'. injection HD' as <-.
    destruct (userLoop_accepts _ _ _ _ _ _ U HL HUin) as (a & a' & Hs).
    destruct (Hacc Hr a a' Hs) as [Hn Hall].
    split; [exact Hn|]. intros d Hd. now apply Hall.
Qed.

(** ** Rejection on storage that is not a stack allocation *)

Lemma processCtor_rejected (P P1 : Pass) (F : Function) (Ctor : Value) (Changed : bool) :
  canCtorBeElided P F Ctor = Done (false, P1) ->
  processCtor (F, P, Changed) Ctor = Done (F, P, Changed).
Proof.
  intros H. pose proof (canCtorBeElided_false _ _ _ _ H) as ->.
  unfold processCtor. now rewrite H.
Qed.

(** C5.  The legality check returns [false], and the candidate is left
    alone, as soon as the destination or the source operand does not
    resolve to a stack allocation; whenever it returns [true] both resolve
    to stack allocations, and these are the [From] and [To] of the plan. *)
Theorem canCtorBeElided_requires_allocas (P : Pass) (F : Function) (Ctor : Value)
    (C : Node) (op0 op1 : Value) :
  getNode F Ctor = Some C ->
  operands C !! 0 = Some op0 -> operands C !! 1 = Some op1 ->
  (isaAlloca F (GetUnderlyingObject F op0) = false \/
   isaAlloca F (GetUnderlyingObject F op1) = false ->
     canCtorBeElided P F Ctor = Done (false, P) /\
     forall Changed, processCtor (F, P, Changed) Ctor = Done (F, P, Changed)) /\
  (forall P', canCtorBeElided P F Ctor = Done (true, P') ->
     isaAlloca F (GetUnderlyingObject F op0) = true /\
     isaAlloca F (GetUnderlyingObject F op1) = true /\
     From P' = Some (GetUnderlyingObject F op1) /\
     To P' = Some (GetUnderlyingObject F op0)).
Proof.
  intros HC H0 H1. split.
  - intros Hno.
    assert (E : canCtorBeElided P F Ctor = Done (false, P)).
    { unfold canCtorBeElided, getOperand. rewrite HC, H0, H1. simpl.
      destruct Hno as [-> | ->]; simpl; [reflexivity|].
      now rewrite orb_true_r. }
    split; [exact E|]. intros Changed. exact (processCtor_rejected _ _ _ _ _ E).
  - intros P' Hok. apply canCtorBeElided_true in Hok.
    destruct Hok as (C' & op0' & op1' & IF & ImmDtors & InstList & HC' & H0' & H1'
                     & Ha0 & Ha1 & _ & _ & _ & ->).
    rewrite HC in HC'. injection HC' as <-.
    rewrite H0 in H0'. injection H0' as <-.
    rewrite H1 in H1'. injection H1' as <-.
    simpl. auto.
Qed.

(** ** The rewriter *)

Lemma eraseDeadInsts_Erasures (stack : list Value) (F F' : Function) :
  eraseDeadInsts stack F = Done F' <-> Erasures F stack F'.
Proof.
  revert F. induction stack as [|EI rest IH]; intros F; simpl.
  - split.
    + intros [= ->]. constructor.
    + intros H. inversion H. reflexivity.
  - destruct (getNode F EI) as [n|] eqn:Hn.
    + destruct (getNumUses F EI =? 0) eqn:Hu; simpl.
      * rewrite IH. apply Nat.eqb_eq in Hu. split.
        -- intros H. constructor; [rewrite Hn; eauto|exact Hu|exact H].
        -- intros H. now inversion H.
      * apply Nat.eqb_neq in Hu. split; [discriminate|].
        intros H. inversion H. contradiction.
    + split; [discriminate|]. intros H. inversion H as [|? ? ? ? Hs]; subst.
      rewrite Hn in Hs. destruct Hs; discriminate.
Qed.

Lemma castInstructions_Done (F : Function) (us r : list Value) :
  castInstructions F us = Done r -> r = us.
Proof.
  revert r. induction us as [|u us IH]; simpl; intros r H.
  - congruence.
  - destruct (getNode F u) as [n|]; [|discriminate].
    destruct (isaInstruction n); [|discriminate].
    apply bind_Done in H. destruct H as [r' [H1 H2]].
    injection H2 as <-. now rewrite (IH _ H1).
Qed.

(** The list the legality check builds: every trivial consumer of the
    source allocation is followed by its own consumers. *)
Lemma userLoop_InstList (F : Function) (Ctor : Value) (ImmDtors us acc l : list Value) :
  userLoop F Ctor ImmDtors us acc = Done (Some l) ->
  l = acc ++ deferredInsts F Ctor us.
Proof.
  unfold deferredInsts.
  revert acc l. induction us as [|U us IH]; intros acc l H; simpl in H.
  - injection H as <-. simpl. now rewrite app_nil_r.
  - apply bind_Done in H. destruct H as [r [Hs H]].
    destruct r as [acc'|]; [|discriminate].
    apply IH in H. subst l.
    unfold userStep in Hs.
    destruct (getNode F U) as [UI|] eqn:HU; [|discriminate].
    assert (HT : isTrivialAt F U = isTrivialInstruction F U UI)
      by (unfold isTrivialAt; now rewrite HU).
    cbn [List.filter]. rewrite HT.
    destruct (negb (isaInstruction UI)); [discriminate|].
    destruct (Nat.eqb U Ctor) eqn:Heq; cbn [negb andb].
    { now injection Hs as <-. }
    destruct (isTrivialInstruction F U UI) eqn:Ht.
    + apply bind_Done in Hs. destruct Hs as [IUs [Hc Hs]].
      apply castInstructions_Done in Hc. subst IUs.
      injection Hs as <-. cbn [flat_map]. now rewrite <- !app_assoc.
    + destruct (isPotentiallyReachable F Ctor U).
      * apply bind_Done in Hs. destruct Hs as [b [_ Hs]].
        destruct (negb b); [discriminate|]. now injection Hs as <-.
      * now injection Hs as <-.
Qed.

Lemma processCtor_accepted (P : Pass) (F : Function) (Call : Value) (Changed : bool)
    (InstList : list Value) (from to : Value) :
  canCtorBeElided P F Call =
    Done (true, {| DeadInstList := InstList; From := Some from; To := Some to |}) ->
  processCtor (F, P, Changed) Call =
    do F1 <- eraseDeadInsts (Call :: rev InstList) F;
    Done (replaceAndErase F1 from to,
          {| DeadInstList := []; From := Some from; To := Some to |}, true).
Proof.
  intros H. unfold processCtor. rewrite H. cbn [bind DeadInstList From To].
  now rewrite rev_app_distr.
Qed.

(** Once the legality check has accepted a candidate, the rewrite
    completes exactly when the candidate and then the dead instructions,
    last recorded first, can be erased one after the other, each live and
    without a consumer at the moment of its erasure.  The dead list holds
    every trivial consumer of [From] followed by its own consumers, so
    consumers go before the instruction they consume.  After the erasures
    the uses of [From] are redirected to [To], and [From] is erased if it
    is then without consumers. *)
Lemma rewrite_in_order (P P1 : Pass) (F : Function) (Call : Value) (Changed : bool) :
  canCtorBeElided P F Call = Done (true, P1) ->
  exists from to,
    From P1 = Some from /\ To P1 = Some to /\
    DeadInstList P1 = deferredInsts F Call (users F from) /\
    forall st',
      processCtor (F, P, Changed) Call = Done st' <->
      exists F1,
        Erasures F (Call :: rev (DeadInstList P1)) F1 /\
        let F2 := replaceAllUsesWith F1 from to in
        st' = (if getNumUses F2 from =? 0 then eraseFromParent F2 from else F2,
               {| DeadInstList := []; From := Some from; To := Some to |},
               true).
Proof.
  intros Hok. pose proof Hok as Hplan. apply canCtorBeElided_true in Hplan.
  destruct Hplan as (C & op0 & op1 & IF & ImmDtors & InstList & _ & _ & _ & _ & _ & _ & _
                     & HL & ->).
  exists (GetUnderlyingObject F op1), (GetUnderlyingObject F op0).
  cbn [From To DeadInstList].
  split; [reflexivity|]. split; [reflexivity|].
  split; [exact (userLoop_InstList _ _ _ _ _ _ HL)|].
  intros st'. rewrite (processCtor_accepted _ _ _ _ _ _ _ Hok).
  split.
  - intros H. apply bind_Done in H. destruct H as [F1 [He H]].
    exists F1. split; [now apply eraseDeadInsts_Erasures|].
    injection H as <-. reflexivity.
  - intros [F1 [He ->]]. apply eraseDeadInsts_Erasures in He.
    rewrite He. reflexivity.
Qed.

(** ** The driver *)

Lemma processCtor_Changed (P : Pass) (F : Function) (c : Value) (Changed : bool)
    (F' : Function) (P' : Pass) (Changed' : bool) :
  processCtor (F, P, Changed) c = Done (F', P', Changed') ->
  (exists P1, canCtorBeElided P F c = Done (true, P1) /\ Changed' = true) \/
  (canCtorBeElided P F c = Done (false, P) /\ F' = F /\ P' = P /\ Changed' = Changed).
Proof.
  intros H. unfold processCtor in H.
  apply bind_Done in H. destruct H as [[ok P1] [Hc H]].
  destruct ok.
  - left. exists P1. split; [exact Hc|].
    apply bind_Done in H. destruct H as [F1 [_ H]].
    cbn [From To] in H. destruct (From P1), (To P1); try discriminate.
    now injection H.
  - right. pose proof (canCtorBeElided_false _ _ _ _ Hc) as ->.
    injection H as <- <- <-. auto.
Qed.

Lemma processCtors_stays_true (st : Function * Pass * bool) (cs : list Value)
    (F' : Function) (P' : Pass) (Changed' : bool) :
  snd st = true ->
  processCtors st cs = Done (F', P', Changed') -> Changed' = true.
Proof.
  revert st. induction cs as [|c cs IH]; cbn [processCtors]; intros [[F P] ch] Hst H.
  - simpl in Hst. congruence.
  - apply bind_Done in H. destruct H as [[[F1 P1] ch1] [Hs H]].
    refine (IH _ _ H).
    apply processCtor_Changed in Hs. simpl in Hst. simpl.
    destruct Hs as [[? [_ ->]]|(_ & _ & _ & ->)]; [reflexivity|exact Hst].
Qed.

Lemma processCtors_all_rejected (P : Pass) (F : Function) (Changed : bool) (cs : list Value) :
  (forall c, c ∈ cs -> canCtorBeElided P F c = Done (false, P)) ->
  processCtors (F, P, Changed) cs = Done (F, P, Changed).
Proof.
  induction cs as [|c cs IH]; cbn [processCtors]; intros Hall; [reflexivity|].
  rewrite (processCtor_rejected P P F c Changed) by (apply Hall, elem_of_cons; tauto).
  cbn [bind]. apply IH. intros x Hx. apply Hall, elem_of_cons. tauto.
Qed.

Lemma processCtors_unchanged (P : Pass) (F : Function) (Changed : bool) (cs : list Value)
    (F' : Function) (P' : Pass) :
  processCtors (F, P, Changed) cs = Done (F', P', false) ->
  F' = F /\ P' = P /\ Changed = false /\
  forall c, c ∈ cs -> canCtorBeElided P F c = Done (false, P).
Proof.
  revert F P Changed. induction cs as [|c cs IH]; cbn [processCtors]; intros F P ch H.
  - injection H as <- <- ->. repeat split. intros c Hc. now apply elem_of_nil in Hc.
  - apply bind_Done in H. destruct H as [[[F1 P1] ch1] [Hs H]].
    destruct (processCtor_Changed _ _ _ _ _ _ _ Hs) as [[P2 [_ ->]]|(Hr & -> & -> & ->)].
    + apply (processCtors_stays_true (F1, P1, true)) in H; [discriminate|reflexivity].
    + apply IH in H. destruct H as (-> & -> & -> & Hall).
      repeat split. intros x Hx. apply elem_of_cons in Hx.
      destruct Hx as [->|Hx]; auto.
Qed.

Lemma processCtors_first_accepted (P : Pass) (F : Function) (cs : list Value)
    (F' : Function) (P' : Pass) :
  processCtors (F, P, false) cs = Done (F', P', true) ->
  exists cs1 c cs2 P1,
    cs = cs1 ++ c :: cs2 /\
    (forall c', c' ∈ cs1 -> canCtorBeElided P F c' = Done (false, P)) /\
    canCtorBeElided P F c = Done (true, P1).
Proof.
  induction cs as [|c cs IH]; cbn [processCtors]; intros H; [discriminate|].
  apply bind_Done in H. destruct H as [[[F1 P1] ch1] [Hs H]].
  destruct (processCtor_Changed _ _ _ _ _ _ _ Hs) as [[P2 [Hok _]]|(Hr & -> & -> & ->)].
  - exists [], c, cs, P2. split; [reflexivity|]. split; [|exact Hok].
    intros c' Hc'. now apply elem_of_nil in Hc'.
  - destruct (IH H) as (cs1 & c0 & cs2 & P2 & -> & Hall & Hok).
    exists (c :: cs1), c0, cs2, P2. split; [reflexivity|]. split; [|exact Hok].
    intros c' Hc'. apply elem_of_cons in Hc'. destruct Hc' as [->|Hc']; auto.
Qed.

(** C7.  A candidate that the legality check rejects leaves the graph, the
    members of the pass and the flag as they were.  A run of the pass
    returns [true] exactly when the function was not skipped and, after a
    series of rejected candidates, one candidate was accepted; a run that
    returns [false] returns the function it was given. *)
Theorem runOnFunction_changes_only_when_accepted (P : Pass) (F : Function)
    (F' : Function) (P' : Pass) (Changed : bool) :
  runOnFunction P F = Done (F', P', Changed) ->
  (forall G Q Q1 c ch,
     canCtorBeElided Q G c = Done (false, Q1) ->
     processCtor (G, Q, ch) c = Done (G, Q, ch)) /\
  (Changed = true <->
     skipFunction F = false /\
     exists cs1 c cs2 P1,
       collectCtors F = cs1 ++ c :: cs2 /\
       (forall c', c' ∈ cs1 -> canCtorBeElided P F c' = Done (false, P)) /\
       canCtorBeElided P F c = Done (true, P1)) /\
  (Changed = false -> F' = F /\ P' = P).
Proof.
  intros Hrun. split; [|split].
  - intros G Q Q1 c ch H. exact (processCtor_rejected _ _ _ _ _ H).
  - unfold runOnFunction in Hrun. split.
    + intros ->. destruct (skipFunction F); [discriminate|].
      split; [reflexivity|]. exact (processCtors_first_accepted _ _ _ _ _ Hrun).
    + intros (Hskip & cs1 & c & cs2 & P1 & Hcs & Hall & Hok).
      rewrite Hskip in Hrun. destruct Changed; [reflexivity|].
      apply processCtors_unchanged in Hrun. destruct Hrun as (_ & _ & _ & Hrej).
      rewrite (Hrej c) in Hok; [discriminate|].
      rewrite Hcs. apply elem_of_app. right. apply elem_of_cons. tauto.
  - intros ->. unfold runOnFunction in Hrun.
    destruct (skipFunction F).
    + now injection Hrun as <- <-.
    + apply processCtors_unchanged in Hrun. tauto.
Qed.

(** C9.  When the function a first run returns is a fixed point of the
    pass -- none of its candidates passes the legality check, as is the case
    whenever that run reported no change -- a second run returns [false]
    and the same function. *)
Theorem second_run_changes_nothing (P : Pass) (F : Function)
    (F1 : Function) (P1 : Pass) (Changed : bool) :
  runOnFunction P F = Done (F1, P1, Changed) ->
  Changed = false \/ fixedPoint P1 F1 ->
  runOnFunction P1 F1 = Done (F1, P1, false).
Proof.
  intros Hrun [->|Hfix].
  - assert (F1 = F /\ P1 = P) as [-> ->]; [|exact Hrun].
    unfold runOnFunction in Hrun. destruct (skipFunction F).
    + now injection Hrun as <- <-.
    + apply processCtors_unchanged in Hrun. tauto.
  - unfold runOnFunction. destruct (skipFunction F1); [reflexivity|].
    apply processCtors_all_rejected. exact Hfix.
Qed.

End Legality.

(** * The pass on the reference analyses *)

(** ** Witnesses of the general statements *)

Lemma consumer_reachability_rule_witness :
  getNode usedAfterDestroy 2 = Some (ctorCall 1 0 6) /\
  findImmediateCopiedDtors usedAfterDestroy 0 alloca = Done [3] /\
  isTrivialInstruction usedAfterDestroy 4 (lifetimeEndCall 5 0 8) = false /\
  isPotentiallyReachable usedAfterDestroy 2 4 = true /\
  (forall d, d ∈ [3] -> isPotentiallyReachable usedAfterDestroy 2 d = true) /\
  (forall InstList,
     userStep usedAfterDestroy 2 [3] InstList 4 = Done (Some InstList) <->
     [3] <> [] /\
     forall d, d ∈ [3] -> isPotentiallyReachable usedAfterDestroy d 4 = true).
Proof.
  repeat (split; [reflexivity|]).
  assert (Hassert : forall d, d ∈ [3] -> isPotentiallyReachable usedAfterDestroy 2 d = true).
  { intros d Hd. apply list_elem_of_singleton in Hd. subst d. reflexivity. }
  split; [exact Hassert|].
  assert (Hin : 4 ∈ users usedAfterDestroy (GetUnderlyingObject usedAfterDestroy 0)).
  { change (4 ∈ [2; 3; 4]). apply list_elem_of_In. simpl. tauto. }
  assert (Hne : 4 <> 2) by lia.
  destruct (consumer_reachability_rule (An := referenceAnalyses)
              usedAfterDestroy 2 (ctorCall 1 0 6) 0 alloca [3]
              4 (lifetimeEndCall 5 0 8)
              eq_refl eq_refl eq_refl eq_refl Hin eq_refl eq_refl Hne eq_refl)
    as (_ & H & _).
  destruct (H eq_refl Hassert) as [H1 _]. exact H1.
Defined.

Lemma canCtorBeElided_requires_allocas_witness :
  getNode copyOfParameter 2 = Some (ctorCall 1 0 3) /\
  isaAlloca copyOfParameter (GetUnderlyingObject copyOfParameter 0) = false /\
  canCtorBeElided emptyPass copyOfParameter 2 = Done (false, emptyPass).
Proof.
  split; [reflexivity|]. split; [reflexivity|].
  apply (canCtorBeElided_requires_allocas (An := referenceAnalyses)
           emptyPass copyOfParameter 2 (ctorCall 1 0 3) 1 0 eq_refl eq_refl eq_refl).
  right. reflexivity.
Defined.


Lemma runOnFunction_changes_only_when_accepted_witness :
  runOnFunction emptyPass (straightLine (plainUse 1)) =
    Done (straightLineElided (plainUse 1),
          {| DeadInstList := []; From := Some 0; To := Some 1 |}, true) /\
  exists cs1 c cs2 P1,
    collectCtors (straightLine (plainUse 1)) = cs1 ++ c :: cs2 /\
    (forall c', c' ∈ cs1 ->
       canCtorBeElided emptyPass (straightLine (plainUse 1)) c' = Done (false, emptyPass)) /\
    canCtorBeElided emptyPass (straightLine (plainUse 1)) c = Done (true, P1).
Proof.
  split; [reflexivity|].
  destruct (runOnFunction_changes_only_when_accepted (An := referenceAnalyses)
              emptyPass (straightLine (plainUse 1))
              (straightLineElided (plainUse 1))
              {| DeadInstList := []; From := Some 0; To := Some 1 |} true eq_refl)
    as (_ & H & _).
  destruct H as [H _]. destruct (H eq_refl) as [_ H']. exact H'.
Defined.

Lemma second_run_changes_nothing_witness :
  runOnFunction emptyPass (straightLine (plainUse 1)) =
    Done (straightLineElided (plainUse 1),
          {| DeadInstList := []; From := Some 0; To := Some 1 |}, true) /\
  fixedPoint {| DeadInstList := []; From := Some 0; To := Some 1 |}
             (straightLineElided (plainUse 1)) /\
  runOnFunction {| DeadInstList := []; From := Some 0; To := Some 1 |}
                (straightLineElided (plainUse 1)) =
    Done (straightLineElided (plainUse 1),
          {| DeadInstList := []; From := Some 0; To := Some 1 |}, false).
Proof.
  assert (Hfix : fixedPoint {| DeadInstList := []; From := Some 0; To := Some 1 |}
                            (straightLineElided (plainUse 1))).
  { intros c Hc. change (c ∈ []) in Hc. now apply elem_of_nil in Hc. }
  split; [reflexivity|]. split; [exact Hfix|].
  apply (second_run_changes_nothing (An := referenceAnalyses)
           emptyPass (straightLine (plainUse 1)) _ _ true eq_refl).
  right. exact Hfix.
Defined.

(** Without the premise a second run may well change the function again:
    the first run on [copiedTwice] elides the second copy, the second run
    the first. *)
Example second_run_may_change :
  exists F1 P1 F2 P2,
    runOnFunction emptyPass copiedTwice = Done (F1, P1, true) /\
    runOnFunction P1 F1 = Done (F2, P2, true) /\ F2 <> F1.
Proof.
  do 4 eexists. split; [vm_compute; reflexivity|]. split; [vm_compute; reflexivity|].
  discriminate.
Qed.

(** The legality check does not look at the consumers of the candidate
    itself: on [ctorResultUsed] it accepts, and the rewrite stops on the
    assertion that guards the erasure. *)
Example erasure_assertion_may_fire :
  (exists P1, canCtorBeElided emptyPass ctorResultUsed 2 = Done (true, P1)) /\
  runOnFunction emptyPass ctorResultUsed = Abort ErasedHasUses.
Proof. split; [eexists|]; reflexivity. Qed.

(** ** The accepted case *)

Lemma usesIn_replaceOperand (from to : Value) (n : Node) :
  from <> to -> usesIn from (replaceOperand from to n) = 0.
Proof.
  intros Hne. unfold usesIn, replaceOperand. simpl.
  apply count_occ_not_In. intros Hin. apply in_map_iff in Hin.
  destruct Hin as [o [Ho _]]. destruct (Nat.eqb o from) eqn:E.
  - congruence.
  - apply Nat.eqb_neq in E. congruence.
Qed.

Lemma replaceOperand_unused (from to : Value) (n : Node) :
  usesIn from n = 0 -> replaceOperand from to n = n.
Proof.
  unfold usesIn, replaceOperand. destruct n as [opc ops]. simpl. intros H. f_equal.
  induction ops as [|o ops IH]; simpl in *; [reflexivity|].
  destruct (Nat.eq_dec o from) as [->|Hne]; [discriminate|].
  rewrite IH by exact H. now rewrite (proj2 (Nat.eqb_neq o from) Hne).
Qed.

(** C8.  On [a = alloca; b = alloca; construct(b, a); destroy(a); N], where
    the last instruction [N] uses neither [a] nor the two calls and is not
    itself a candidate, the pass reports a change, the construction and the
    destruction are gone, and [N] is as it was.  The source allocation,
    left without consumers, is erased with them. *)
Theorem straight_line_elided (N : Node) :
  usesIn 0 N = 0 -> usesIn 2 N = 0 -> usesIn 3 N = 0 ->
  isCxxCMCtor N = false ->
  runOnFunction emptyPass (straightLine N) =
    Done (straightLineElided N,
          {| DeadInstList := []; From := Some 0; To := Some 1 |}, true).
Proof.
  intros H0 H2 H3 HN.
  unfold runOnFunction. cbn [skipFunction referenceAnalyses].
  assert (HC : collectCtors (straightLine N) = [2]).
  { unfold collectCtors. cbn. unfold visitCallBase. rewrite HN.
    destruct (isaCallBase N); reflexivity. }
  rewrite HC. cbn [processCtors].
  unfold processCtor, canCtorBeElided. cbn. rewrite ?H0, ?H2, ?H3. cbn.
  rewrite ?H2, ?H3. cbn.
  unfold replaceAndErase, getNumUses, users. cbn.
  pose proof (usesIn_replaceOperand 0 1 N ltac:(lia)) as HR.
  unfold usesIn, replaceOperand in HR. cbn in HR. rewrite HR. cbn.
  unfold straightLineElided, eraseFromParent, replaceAllUsesWith. cbn.
  now rewrite (replaceOperand_unused 0 1 N H0).
Qed.

Lemma straight_line_elided_witness :
  usesIn 0 (plainUse 1) = 0 /\ isCxxCMCtor (plainUse 1) = false /\
  runOnFunction emptyPass (straightLine (plainUse 1)) =
    Done (straightLineElided (plainUse 1),
          {| DeadInstList := []; From := Some 0; To := Some 1 |}, true).
Proof.
  split; [reflexivity|]. split; [reflexivity|].
  exact (straight_line_elided (plainUse 1) eq_refl eq_refl eq_refl eq_refl).
Defined.

(** ** Where the code departs from its description *)

(** C1, counterexample.  In [usedAfterCopy] the source allocation has one
    consumer besides the candidate; it is reachable from the constructor,
    and it is reachable from every instruction of [ImmDtors], there being
    none.  The check rejects it all the same. *)
Lemma empty_ImmDtors_rejects :
  canCtorBeElided emptyPass usedAfterCopy 2 = Done (false, emptyPass) /\
  ~ (forall (U : Value) (UI : Node) (ImmDtors InstList : list Value),
       findImmediateCopiedDtors usedAfterCopy 0 alloca = Done ImmDtors ->
       U ∈ users usedAfterCopy 0 ->
       getNode usedAfterCopy U = Some UI ->
       U <> 2 ->
       isTrivialInstruction usedAfterCopy U UI = false ->
       isPotentiallyReachable usedAfterCopy 2 U = true ->
       (userStep usedAfterCopy 2 ImmDtors InstList U = Done (Some InstList) <->
        forall d, d ∈ ImmDtors -> isPotentiallyReachable usedAfterCopy d U = true)).
Proof.
  split; [reflexivity|].
  intros H.
  assert (Hin : 3 ∈ users usedAfterCopy 0).
  { change (3 ∈ [2; 3]). apply list_elem_of_In. simpl. tauto. }
  assert (Hne : 3 <> 2) by lia.
  specialize (H 3 (plainUse 0) [] [] eq_refl Hin eq_refl Hne eq_refl eq_refl).
  destruct H as [_ H].
  assert (E : userStep usedAfterCopy 2 [] [] 3 = Done (Some [])).
  { apply H. intros d Hd. now apply elem_of_nil in Hd. }
  discriminate E.
Qed.

(** The lifetime-end marker of [lifetimeOnAlloca] is
    trivial in the words of the description and not trivial for the code. *)
Lemma lifetime_marker_not_trivial :
  ~ (forall (F : Function) (h : Value) (I : Node),
       getNode F h = Some I ->
       (isTrivialInstruction F h I = true <-> TrivialAsSpecified F h)).
Proof.
  intros H.
  specialize (H lifetimeOnAlloca 1 (lifetimeEndCall 2 0 3) eq_refl).
  destruct H as [_ H].
  assert (E : isTrivialInstruction lifetimeOnAlloca 1 (lifetimeEndCall 2 0 3) = true).
  { apply H. eapply trivial_lifetime; reflexivity. }
  discriminate E.
Qed.

(** C3, the code at the failing inputs.  A lifetime-end marker that
    consumes the instruction directly is not reported, and a bitcast whose
    single consumer is a lifetime-end marker makes the function read
    through the null [II]. *)
Theorem lifetime_end_consumers_missed :
  users lifetimeOnAlloca 0 = [1] /\
  isLifetimeEnd (lifetimeEndCall 2 0 3) = true /\
  findImmediateCopiedDtors lifetimeOnAlloca 0 alloca = Done [] /\
  users lifetimeOnCast 0 = [1] /\ users lifetimeOnCast 1 = [2] /\
  findImmediateCopiedDtors lifetimeOnCast 0 alloca = Abort NullDereference.
Proof. repeat split. Qed.

(** C10, the code at the failing input.  In [destroyedOnBothArms] both
    operands of the candidate are stack allocations, the destructor call on
    the other arm is among [ImmDtors] and is not reachable from the
    constructor, and the legality check stops on its assertion. *)
Theorem dtor_assertion_fires :
  isaAlloca destroyedOnBothArms (GetUnderlyingObject destroyedOnBothArms 1) = true /\
  isaAlloca destroyedOnBothArms (GetUnderlyingObject destroyedOnBothArms 0) = true /\
  findImmediateCopiedDtors destroyedOnBothArms 0 alloca = Done [4; 6] /\
  isPotentiallyReachable destroyedOnBothArms 3 6 = false /\
  canCtorBeElided emptyPass destroyedOnBothArms 3 = Abort DtorNotReached.
Proof. repeat split. Qed.

(** C2, the code at the failing input.  The lifetime-end marker that
    [lifetimeOnAlloca] puts on the alloca is a lifetime marker, trivial in
    the words of the description, and the classifier returns [false] for
    it: the guard of lines 198-200 lets it through and neither of the two
    later tests can hold of it.  In [usedAfterDestroy] the marker on the
    source allocation is thus taken for a genuine use; the elision is
    applied and the marker survives it, redirected to the destination. *)
Theorem lifetime_marker_classified_not_trivial :
  isLifetimeStartOrEnd (lifetimeEndCall 2 0 3) = true /\
  TrivialAsSpecified lifetimeOnAlloca 1 /\
  isTrivialInstruction lifetimeOnAlloca 1 (lifetimeEndCall 2 0 3) = false /\
  getNode usedAfterDestroy 4 = Some (lifetimeEndCall 5 0 8) /\
  isTrivialInstruction usedAfterDestroy 4 (lifetimeEndCall 5 0 8) = false /\
  exists F' P',
    runOnFunction emptyPass usedAfterDestroy = Done (F', P', true) /\
    getNode F' 4 = Some (lifetimeEndCall 5 1 8).
Proof.
  split; [reflexivity|]. split; [eapply trivial_lifetime; reflexivity|].
  split; [reflexivity|]. split; [reflexivity|]. split; [reflexivity|].
  eexists _, _. split; reflexivity.
Qed.

(** C6, the code at the failing input.  In [ctorResultUsed] the legality
    check accepts the candidate, whose own consumers it never looks at; the
    candidate is the first instruction the rewrite takes from the dead
    list, it still has a consumer, and the run stops on the assertion of
    line 110 instead of erasing an instruction without consumers. *)
Theorem accepted_candidate_has_consumer :
  canCtorBeElided emptyPass ctorResultUsed 2 =
    Done (true, {| DeadInstList := [3]; From := Some 0; To := Some 1 |}) /\
  users ctorResultUsed 2 = [4] /\
  getNumUses ctorResultUsed 2 = 1 /\
  processCtor (ctorResultUsed, emptyPass, false) 2 = Abort ErasedHasUses /\
  runOnFunction emptyPass ctorResultUsed = Abort ErasedHasUses.
Proof. repeat split. Qed.

(** * Further properties *)

(** ** The graph *)

Lemma usersFrom_elem (i : nat) (ns : list (option Node)) (v u : Value) :
  u ∈ usersFrom i ns v <->
  exists n, i <= u /\ ns !! (u - i) = Some (Some n) /\ 0 < usesIn v n.
Proof.
  revert i. induction ns as [|o ns IH]; intros i; simpl.
  - split; [intros H; now apply elem_of_nil in H|].
    intros (n & _ & H & _). discriminate.
  - rewrite elem_of_app, IH. split.
    + intros [H|(n & Hle & Hn & Hu)].
      * destruct o as [n|]; [|now apply elem_of_nil in H].
        apply elem_of_replicate in H. destruct H as [-> Hk].
        exists n. rewrite Nat.sub_diag. simpl. repeat split; [lia|lia].
      * exists n. replace (u - i) with (S (u - S i)) by lia. simpl.
        repeat split; [lia|exact Hn|exact Hu].
    + intros (n & Hle & Hn & Hu).
      destruct (decide (u = i)) as [->|Hne].
      * left. rewrite Nat.sub_diag in Hn. simpl in Hn. injection Hn as ->.
        apply elem_of_replicate. split; [reflexivity|lia].
      * right. exists n. replace (u - i) with (S (u - S i)) in Hn by lia. simpl in Hn.
        repeat split; [lia|exact Hn|exact Hu].
Qed.

(** The consumers of a value are the live nodes that have it for operand. *)
Lemma users_elem (F : Function) (v u : Value) :
  u ∈ users F v <-> exists n, getNode F u = Some n /\ 0 < usesIn v n.
Proof.
  unfold users, getNode. rewrite usersFrom_elem. rewrite Nat.sub_0_r.
  unfold Value in *. split.
  - intros (n & _ & Hn & Hu). exists n. now rewrite Hn.
  - intros (n & Hn & Hu). exists n. split; [lia|]. split; [|exact Hu].
    destruct (arena F !! u) as [[m|]|] eqn:E; congruence.
Qed.

Lemma getNumUses_zero (F : Function) (v : Value) :
  getNumUses F v = 0 <-> forall u n, getNode F u = Some n -> usesIn v n = 0.
Proof.
  unfold getNumUses. split.
  - intros H u n Hn. destruct (usesIn v n) eqn:E; [reflexivity|].
    assert (Hin : u ∈ users F v) by (apply users_elem; exists n; split; [exact Hn|lia]).
    apply length_zero_iff_nil in H. rewrite H in Hin. now apply elem_of_nil in Hin.
  - intros H. destruct (users F v) as [|u us] eqn:E; [reflexivity|].
    assert (Hin : u ∈ users F v) by (rewrite E; apply elem_of_cons; tauto).
    apply users_elem in Hin. destruct Hin as (n & Hn & Hu).
    rewrite (H u n Hn) in Hu. lia.
Qed.

Lemma usesIn_pos (v : Value) (n : Node) : 0 < usesIn v n <-> v ∈ operands n.
Proof.
  unfold usesIn. rewrite list_elem_of_In. symmetry. apply count_occ_In.
Qed.

Lemma getNode_erase_eq (F : Function) (v : Value) :
  getNode (eraseFromParent F v) v = None.
Proof.
  unfold getNode, eraseFromParent. simpl.
  destruct (decide (v < length (arena F))) as [Hlt|Hge].
  - now rewrite list_lookup_insert_eq.
  - rewrite list_insert_ge by lia. rewrite lookup_ge_None_2 by lia. reflexivity.
Qed.

Lemma getNode_erase_ne (F : Function) (v u : Value) :
  u <> v -> getNode (eraseFromParent F v) u = getNode F u.
Proof.
  intros Hne. unfold getNode, eraseFromParent. simpl.
  now rewrite list_lookup_insert_ne by congruence.
Qed.

Lemma getNode_erase_Some (F : Function) (v u : Value) (n : Node) :
  getNode (eraseFromParent F v) u = Some n -> u <> v /\ getNode F u = Some n.
Proof.
  intros H. destruct (decide (u = v)) as [->|Hne].
  - rewrite getNode_erase_eq in H. discriminate.
  - rewrite getNode_erase_ne in H by exact Hne. auto.
Qed.

Lemma getNode_replaceAllUsesWith (F : Function) (from to u : Value) :
  getNode (replaceAllUsesWith F from to) u = replaceOperand from to <$> getNode F u.
Proof.
  unfold getNode, replaceAllUsesWith. simpl.
  change (map ?f ?l) with (f <$> l). rewrite list_lookup_fmap.
  unfold Value in *. destruct (arena F !! u) as [[n|]|]; reflexivity.
Qed.

Lemma replaceOperand_opcode (from to : Value) (n : Node) :
  opcode (replaceOperand from to n) = opcode n /\
  length (operands (replaceOperand from to n)) = length (operands n).
Proof. unfold replaceOperand. simpl. now rewrite length_map. Qed.

Lemma filter_sublist (f : Value -> bool) (l : list Value) :
  sublist (List.filter f l) l.
Proof.
  induction l as [|x l IH]; simpl; [constructor|].
  destruct (f x); now constructor.
Qed.

Lemma filter_not_elem (v : Value) (l : list Value) :
  v ∉ List.filter (fun i => negb (Nat.eqb i v)) l.
Proof.
  rewrite list_elem_of_In, filter_In. intros [_ H].
  now rewrite Nat.eqb_refl in H.
Qed.

(** ** What a rewrite keeps *)

Lemma keepsInstructions_refl (F : Function) : keepsInstructions F F.
Proof. split; [reflexivity|]. intros v n H. eauto. Qed.

Lemma keepsInstructions_trans (F G H : Function) :
  keepsInstructions F G -> keepsInstructions G H -> keepsInstructions F H.
Proof.
  intros [L1 K1] [L2 K2]. split; [congruence|].
  intros v n'' Hn. destruct (K2 _ _ Hn) as (n' & Hn' & Ho' & Hl').
  destruct (K1 _ _ Hn') as (n & Hn0 & Ho & Hl).
  exists n. repeat split; congruence.
Qed.

Lemma keepsInstructions_erase (F : Function) (v : Value) :
  keepsInstructions F (eraseFromParent F v).
Proof.
  split; [apply length_insert|].
  intros u n H. apply getNode_erase_Some in H. destruct H as [_ H]. eauto.
Qed.

Lemma keepsInstructions_replace (F : Function) (from to : Value) :
  keepsInstructions F (replaceAllUsesWith F from to).
Proof.
  split; [apply length_map|].
  intros u n' H. rewrite getNode_replaceAllUsesWith in H.
  destruct (getNode F u) as [n|]; [|discriminate].
  injection H as <-. exists n. split; [reflexivity|]. apply replaceOperand_opcode.
Qed.

Lemma keepsBlockOrder_refl (F : Function) : keepsBlockOrder F F.
Proof. apply Forall2_same_length_lookup_2; [reflexivity|].
  intros i B B' H1 H2. rewrite H1 in H2. injection H2 as <-. reflexivity.
Qed.

Lemma keepsBlockOrder_trans (F G H : Function) :
  keepsBlockOrder F G -> keepsBlockOrder G H -> keepsBlockOrder F H.
Proof.
  unfold keepsBlockOrder. intros H1 H2.
  eapply Forall2_trans; [|exact H1|exact H2].
  intros B B' B'' L1 L2. now transitivity (insts B').
Qed.

Lemma keepsBlockOrder_erase (F : Function) (v : Value) :
  keepsBlockOrder F (eraseFromParent F v).
Proof.
  unfold keepsBlockOrder, eraseFromParent. simpl.
  induction (blocks F) as [|B bs IH]; simpl; constructor; [|exact IH].
  simpl. apply filter_sublist.
Qed.

Lemma keepsBlockOrder_replace (F : Function) (from to : Value) :
  keepsBlockOrder F (replaceAllUsesWith F from to).
Proof. exact (keepsBlockOrder_refl F). Qed.

Lemma keeps_replaceAndErase (F : Function) (from to : Value) :
  keepsInstructions F (replaceAndErase F from to) /\
  keepsBlockOrder F (replaceAndErase F from to).
Proof.
  unfold replaceAndErase.
  destruct (getNumUses (replaceAllUsesWith F from to) from =? 0).
  - split.
    + eapply keepsInstructions_trans;
        [apply keepsInstructions_replace|apply keepsInstructions_erase].
    + eapply keepsBlockOrder_trans;
        [apply keepsBlockOrder_replace|apply keepsBlockOrder_erase].
  - split; [apply keepsInstructions_replace|apply keepsBlockOrder_replace].
Qed.

Lemma keeps_Erasures (F F' : Function) (stack : list Value) :
  Erasures F stack F' -> keepsInstructions F F' /\ keepsBlockOrder F F'.
Proof.
  induction 1 as [F|F EI rest F' _ _ _ [IH1 IH2]].
  - split; [apply keepsInstructions_refl|apply keepsBlockOrder_refl].
  - split.
    + eapply keepsInstructions_trans; [apply keepsInstructions_erase|exact IH1].
    + eapply keepsBlockOrder_trans; [apply keepsBlockOrder_erase|exact IH2].
Qed.

Lemma keepsInstructions_dead (F G : Function) (v : Value) :
  keepsInstructions F G -> getNode F v = None -> getNode G v = None.
Proof.
  intros [_ K] H. destruct (getNode G v) as [n'|] eqn:E; [|reflexivity].
  destruct (K _ _ E) as (n & Hn & _). congruence.
Qed.

Lemma notInBlocks_erase (F : Function) (v : Value) : notInBlocks (eraseFromParent F v) v.
Proof.
  intros B HB. unfold eraseFromParent in HB. simpl in HB.
  apply list_elem_of_In, in_map_iff in HB. destruct HB as (B0 & <- & _). simpl.
  apply filter_not_elem.
Qed.

Lemma notInBlocks_keeps (F G : Function) (v : Value) :
  keepsBlockOrder F G -> notInBlocks F v -> notInBlocks G v.
Proof.
  intros K H B' HB'. apply list_elem_of_lookup in HB'. destruct HB' as [i Hi].
  destruct (Forall2_lookup_r _ _ _ _ _ K Hi) as (B & HB & Hsub).
  intros Hin. apply (H B); [apply list_elem_of_lookup; eauto|].
  eapply elem_of_sublist; eauto.
Qed.

(** A sequence of erasures that goes through erases distinct instructions,
    and leaves each of them out of the arena and out of the blocks. *)
Lemma Erasures_erased (F F' : Function) (stack : list Value) :
  Erasures F stack F' ->
  NoDup stack /\
  forall x, x ∈ stack -> getNode F' x = None /\ notInBlocks F' x.
Proof.
  induction 1 as [F|F EI rest F' Hlive Hu Hrest [IHn IHe]].
  - split; [constructor|]. intros x Hx. now apply elem_of_nil in Hx.
  - destruct (keeps_Erasures _ _ _ Hrest) as [KI KC].
    assert (Hdead : getNode F' EI = None)
      by (apply (keepsInstructions_dead _ _ _ KI), getNode_erase_eq).
    split.
    + constructor; [|exact IHn]. intros Hin.
      (* a second erasure of [EI] would have met an erased instruction *)
      clear -Hrest Hin. remember (eraseFromParent F EI) as G eqn:EG.
      assert (HG : getNode G EI = None) by (subst G; apply getNode_erase_eq).
      clear EG. induction Hrest as [G|G x rest G' Hl _ Hr IH].
      * now apply elem_of_nil in Hin.
      * apply elem_of_cons in Hin. destruct Hin as [->|Hin].
        -- rewrite HG in Hl. destruct Hl; discriminate.
        -- apply IH; [exact Hin|].
           apply (keepsInstructions_dead G); [apply keepsInstructions_erase|exact HG].
    + intros x Hx. apply elem_of_cons in Hx. destruct Hx as [->|Hx]; [|now apply IHe].
      split; [exact Hdead|].
      apply (notInBlocks_keeps _ _ _ KC), notInBlocks_erase.
Qed.

Lemma Erasures_untouched (F F' : Function) (stack : list Value) (v : Value) :
  Erasures F stack F' -> v ∉ stack -> getNode F' v = getNode F v.
Proof.
  induction 1 as [F|F EI rest F' _ _ _ IH]; intros Hv; [reflexivity|].
  rewrite IH by (intros H; apply Hv, elem_of_cons; tauto).
  apply getNode_erase_ne. intros ->. apply Hv, elem_of_cons. tauto.
Qed.

(** ** Dangling operands *)

Lemma getNode_In (F : Function) (o : option Node) :
  In o (arena F) -> forall n, o = Some n -> exists u, getNode F u = Some n.
Proof.
  intros Hin n ->. apply list_elem_of_In, list_elem_of_lookup in Hin.
  destruct Hin as [u Hu]. exists u. unfold getNode. unfold Value in *. now rewrite Hu.
Qed.

Lemma In_getNode (F : Function) (u : Value) (n : Node) :
  getNode F u = Some n -> In (Some n) (arena F).
Proof.
  unfold getNode. intros H. apply list_elem_of_In, list_elem_of_lookup. exists u.
  unfold Value in *. destruct (arena F !! u) as [[m|]|]; congruence.
Qed.

Lemma noDanglingOperands_iff (F : Function) :
  noDanglingOperands F = true <->
  forall u n v, getNode F u = Some n -> v ∈ operands n -> isLive F v = true.
Proof.
  unfold noDanglingOperands. rewrite forallb_forall. split.
  - intros H u n v Hn Hv. specialize (H _ (In_getNode _ _ _ Hn)). simpl in H.
    rewrite forallb_forall in H. apply H. now apply list_elem_of_In.
  - intros H [n|] Hin; [|reflexivity].
    destruct (getNode_In _ _ Hin n eq_refl) as [u Hu].
    apply forallb_forall. intros v Hv. apply (H u n v Hu). now apply list_elem_of_In.
Qed.

Lemma allocasTakeNoOperand_iff (F : Function) :
  allocasTakeNoOperand F = true <->
  forall u n, getNode F u = Some n -> isaAllocaInst n = true -> operands n = [].
Proof.
  unfold allocasTakeNoOperand. rewrite forallb_forall. split.
  - intros H u n Hn Ha. specialize (H _ (In_getNode _ _ _ Hn)). simpl in H.
    rewrite Ha in H. simpl in H. apply Nat.eqb_eq in H. now apply length_zero_iff_nil.
  - intros H [n|] Hin; [|reflexivity].
    destruct (getNode_In _ _ Hin n eq_refl) as [u Hu].
    destruct (isaAllocaInst n) eqn:Ha; [|reflexivity].
    rewrite (H u n Hu Ha). reflexivity.
Qed.

Lemma isLive_Some (F : Function) (v : Value) :
  isLive F v = true <-> exists n, getNode F v = Some n.
Proof.
  unfold isLive. destruct (getNode F v); split; eauto; try discriminate.
  intros [n H]. discriminate.
Qed.

Lemma noDangling_erase (F : Function) (v : Value) :
  getNumUses F v = 0 -> noDanglingOperands F = true ->
  noDanglingOperands (eraseFromParent F v) = true.
Proof.
  rewrite getNumUses_zero, !noDanglingOperands_iff. intros Hu H u n w Hn Hw.
  apply getNode_erase_Some in Hn. destruct Hn as [Hne Hn].
  assert (Hwv : w <> v).
  { intros ->. apply usesIn_pos in Hw. rewrite (Hu u n Hn) in Hw. lia. }
  apply isLive_Some. rewrite getNode_erase_ne by exact Hwv.
  apply isLive_Some. eauto.
Qed.

Lemma noDangling_replace (F : Function) (from to : Value) :
  isLive F to = true -> noDanglingOperands F = true ->
  noDanglingOperands (replaceAllUsesWith F from to) = true.
Proof.
  rewrite !noDanglingOperands_iff. intros Hto H u n' w Hn Hw.
  rewrite getNode_replaceAllUsesWith in Hn.
  destruct (getNode F u) as [n|] eqn:E; [|discriminate]. injection Hn as <-.
  assert (Hlive : isLive F w = true).
  { unfold replaceOperand in Hw. simpl in Hw.
    apply list_elem_of_In, in_map_iff in Hw. destruct Hw as (o & Ho & Hin).
    destruct (Nat.eqb o from); [now subst w|].
    subst o. apply (H u n w E). now apply list_elem_of_In. }
  apply isLive_Some in Hlive. destruct Hlive as [m Hm].
  apply isLive_Some. rewrite getNode_replaceAllUsesWith, Hm. simpl. eauto.
Qed.

Lemma noDangling_Erasures (F F' : Function) (stack : list Value) :
  Erasures F stack F' -> noDanglingOperands F = true -> noDanglingOperands F' = true.
Proof.
  induction 1 as [F|F EI rest F' _ Hu _ IH]; intros H; [exact H|].
  apply IH, noDangling_erase; assumption.
Qed.

Lemma noDangling_replaceAndErase (F : Function) (from to : Value) :
  isLive F to = true -> noDanglingOperands F = true ->
  noDanglingOperands (replaceAndErase F from to) = true.
Proof.
  intros Hto H. unfold replaceAndErase.
  pose proof (noDangling_replace F from to Hto H) as H'.
  destruct (getNumUses (replaceAllUsesWith F from to) from =? 0) eqn:E; [|exact H'].
  apply noDangling_erase; [now apply Nat.eqb_eq|exact H'].
Qed.

Lemma allocasTakeNoOperand_keeps (F G : Function) :
  keepsInstructions F G -> allocasTakeNoOperand F = true -> allocasTakeNoOperand G = true.
Proof.
  rewrite !allocasTakeNoOperand_iff. intros [_ K] H u n' Hn Ha.
  destruct (K _ _ Hn) as (n & Hn0 & Ho & Hl).
  apply length_zero_iff_nil. rewrite Hl.
  apply length_zero_iff_nil, (H u n Hn0).
  unfold isaAllocaInst in *. now rewrite <- Ho.
Qed.

(** After the uses of [from] have been redirected elsewhere none is left. *)
Lemma getNumUses_replaced (F : Function) (from to : Value) :
  from <> to -> getNumUses (replaceAllUsesWith F from to) from = 0.
Proof.
  intros Hne. apply getNumUses_zero. intros u n' Hn.
  rewrite getNode_replaceAllUsesWith in Hn.
  destruct (getNode F u) as [n|]; [|discriminate]. injection Hn as <-.
  now apply usesIn_replaceOperand.
Qed.

Section Coverage.
Context `{An : Analyses}.

(** ** One applied elision *)

(** What the body of the loop over the candidates does with an accepted
    candidate, step by step. *)
Lemma processCtor_applied (P P1 P' : Pass) (F F' : Function) (Call : Value)
    (Changed Changed' : bool) :
  canCtorBeElided P F Call = Done (true, P1) ->
  processCtor (F, P, Changed) Call = Done (F', P', Changed') ->
  exists C op0 op1 F1,
    getNode F Call = Some C /\
    operands C !! 0 = Some op0 /\ operands C !! 1 = Some op1 /\
    isaAlloca F (GetUnderlyingObject F op0) = true /\
    isaAlloca F (GetUnderlyingObject F op1) = true /\
    P1 = {| DeadInstList := deferredInsts F Call (users F (GetUnderlyingObject F op1));
            From := Some (GetUnderlyingObject F op1);
            To := Some (GetUnderlyingObject F op0) |} /\
    Erasures F (Call :: rev (DeadInstList P1)) F1 /\
    F' = replaceAndErase F1 (GetUnderlyingObject F op1) (GetUnderlyingObject F op0) /\
    P' = {| DeadInstList := [];
            From := Some (GetUnderlyingObject F op1);
            To := Some (GetUnderlyingObject F op0) |} /\
    Changed' = true.
Proof.
  intros Hok Hrun. pose proof Hok as Hplan. apply canCtorBeElided_true in Hplan.
  destruct Hplan as (C & op0 & op1 & IF & ImmDtors & InstList & HC & H0 & H1 & Ha0 & Ha1
                     & _ & _ & HL & ->).
  rewrite (processCtor_accepted _ _ _ _ _ _ _ Hok) in Hrun.
  apply bind_Done in Hrun. destruct Hrun as [F1 [He Hrun]].
  injection Hrun as <- <- <-.
  apply eraseDeadInsts_Erasures in He.
  pose proof (userLoop_InstList _ _ _ _ _ _ HL) as HI. simpl in HI. subst InstList.
  exists C, op0, op1, F1. repeat split; auto.
Qed.

Lemma processCtor_keeps (P P' : Pass) (F F' : Function) (Call : Value)
    (Changed Changed' : bool) :
  processCtor (F, P, Changed) Call = Done (F', P', Changed') ->
  keepsInstructions F F' /\ keepsBlockOrder F F'.
Proof.
  intros Hrun.
  destruct (processCtor_Changed _ _ _ _ _ _ _ Hrun) as [[P1 [Hok _]]|(_ & -> & _)].
  - destruct (processCtor_applied _ _ _ _ _ _ _ _ Hok Hrun)
      as (C & op0 & op1 & F1 & _ & _ & _ & _ & _ & _ & He & -> & _).
    destruct (keeps_Erasures _ _ _ He) as [K1 K2].
    destruct (keeps_replaceAndErase F1 (GetUnderlyingObject F op1)
                (GetUnderlyingObject F op0)) as [K3 K4].
    split; [eapply keepsInstructions_trans|eapply keepsBlockOrder_trans]; eauto.
  - split; [apply keepsInstructions_refl|apply keepsBlockOrder_refl].
Qed.

Lemma processCtors_keeps (st : Function * Pass * bool) (cs : list Value)
    (F' : Function) (P' : Pass) (Changed' : bool) :
  processCtors st cs = Done (F', P', Changed') ->
  keepsInstructions (fst (fst st)) F' /\ keepsBlockOrder (fst (fst st)) F'.
Proof.
  revert st. induction cs as [|c cs IH]; cbn [processCtors]; intros [[F P] ch] H.
  - injection H as <- <- <-. simpl.
    split; [apply keepsInstructions_refl|apply keepsBlockOrder_refl].
  - apply bind_Done in H. destruct H as [[[F1 P1] ch1] [Hs H]].
    apply processCtor_keeps in Hs. apply IH in H. simpl in *.
    destruct Hs as [K1 K2], H as [K3 K4].
    split; [eapply keepsInstructions_trans|eapply keepsBlockOrder_trans]; eauto.
Qed.

Lemma deferredInsts_consumers (F : Function) (Ctor w x : Value) :
  x ∈ deferredInsts F Ctor (users F w) -> exists v, x ∈ users F v.
Proof.
  unfold deferredInsts. intros H.
  apply list_elem_of_In, in_flat_map in H. destruct H as (U & HU & Hx).
  apply filter_In in HU. destruct HU as [HU _].
  destruct Hx as [<-|Hx].
  - exists w. now apply list_elem_of_In.
  - exists U. now apply list_elem_of_In.
Qed.

Lemma consumer_has_operand (F : Function) (v x : Value) :
  x ∈ users F v -> exists n, getNode F x = Some n /\ operands n <> [].
Proof.
  intros H. apply users_elem in H. destruct H as (n & Hn & Hu).
  exists n. split; [exact Hn|]. apply usesIn_pos in Hu.
  intros E. rewrite E in Hu. now apply elem_of_nil in Hu.
Qed.

Lemma processCtor_noDangling (P P' : Pass) (F F' : Function) (Call : Value)
    (Changed Changed' : bool) :
  processCtor (F, P, Changed) Call = Done (F', P', Changed') ->
  noDanglingOperands F = true -> allocasTakeNoOperand F = true ->
  noDanglingOperands F' = true.
Proof.
  intros Hrun HND HAP.
  destruct (processCtor_Changed _ _ _ _ _ _ _ Hrun) as [[P1 [Hok _]]|(_ & -> & _)];
    [|exact HND].
  destruct (processCtor_applied _ _ _ _ _ _ _ _ Hok Hrun)
    as (C & op0 & op1 & F1 & HC & H0 & _ & Hto & _ & -> & He & -> & _).
  cbn [DeadInstList] in He.
  set (to := GetUnderlyingObject F op0) in *.
  unfold isaAlloca in Hto. destruct (getNode F to) as [T|] eqn:HT; [|discriminate].
  pose proof (proj1 (allocasTakeNoOperand_iff F) HAP to T HT Hto) as HTops.
  assert (Hout : to ∉ Call :: rev (deferredInsts F Call (users F (GetUnderlyingObject F op1)))).
  { intros Hin. apply elem_of_cons in Hin. destruct Hin as [Heq|Hin].
    - rewrite Heq, HC in HT. injection HT as <-. rewrite HTops in H0. discriminate.
    - apply list_elem_of_In, in_rev, list_elem_of_In in Hin.
      apply deferredInsts_consumers in Hin. destruct Hin as [v Hv].
      apply consumer_has_operand in Hv. destruct Hv as (n & Hn & Hne).
      rewrite HT in Hn. injection Hn as <-. contradiction. }
  apply noDangling_replaceAndErase.
  - apply isLive_Some. rewrite (Erasures_untouched _ _ _ _ He Hout). eauto.
  - exact (noDangling_Erasures _ _ _ He HND).
Qed.

Lemma processCtors_noDangling (st : Function * Pass * bool) (cs : list Value)
    (F' : Function) (P' : Pass) (Changed' : bool) :
  processCtors st cs = Done (F', P', Changed') ->
  noDanglingOperands (fst (fst st)) = true -> allocasTakeNoOperand (fst (fst st)) = true ->
  noDanglingOperands F' = true.
Proof.
  revert st. induction cs as [|c cs IH]; cbn [processCtors]; intros [[F P] ch] H HND HAP.
  - now injection H as <- <- <-.
  - apply bind_Done in H. destruct H as [[[F1 P1] ch1] [Hs H]]. simpl in *.
    apply (IH _ H); simpl.
    + exact (processCtor_noDangling _ _ _ _ _ _ _ Hs HND HAP).
    + destruct (processCtor_keeps _ _ _ _ _ _ _ Hs) as [K _].
      exact (allocasTakeNoOperand_keeps _ _ K HAP).
Qed.

(** ** The pass as a whole *)

Lemma keepsInstructions_runOnFunction (P P' : Pass) (F F' : Function) (Changed : bool) :
  runOnFunction P F = Done (F', P', Changed) -> keepsInstructions F F'.
Proof.
  unfold runOnFunction. destruct (skipFunction F).
  - intros [= <- <- <-]. apply keepsInstructions_refl.
  - intros H. apply processCtors_keeps in H. exact (proj1 H).
Qed.

(** X1.  A run of the pass creates no instruction and changes the kind of
    none: the arena keeps its size, and every node live after the run was
    live before it, with the same opcode and the same number of operands. *)
Theorem runOnFunction_keeps_instructions (P P' : Pass) (F F' : Function) (Changed : bool) :
  runOnFunction P F = Done (F', P', Changed) ->
  length (arena F') = length (arena F) /\
  forall v n', getNode F' v = Some n' ->
    exists n, getNode F v = Some n /\ opcode n' = opcode n /\
              length (operands n') = length (operands n).
Proof.
  unfold runOnFunction. destruct (skipFunction F).
  - intros [= <- <- <-]. apply keepsInstructions_refl.
  - intros H. apply processCtors_keeps in H. exact (proj1 H).
Qed.

(** X2.  A run of the pass moves no instruction: the function has as many
    blocks as before, and each block holds a subsequence of the
    instructions it held, in their order. *)
Theorem runOnFunction_keeps_block_order (P P' : Pass) (F F' : Function) (Changed : bool) :
  runOnFunction P F = Done (F', P', Changed) ->
  Forall2 (fun B B' => sublist (insts B') (insts B)) (blocks F) (blocks F').
Proof.
  unfold runOnFunction. destruct (skipFunction F).
  - intros [= <- <- <-]. apply keepsBlockOrder_refl.
  - intros H. apply processCtors_keeps in H. exact (proj2 H).
Qed.

(** X3.  On a function whose allocas take no operand and in which every
    operand of a live node is live, a run of the pass that returns leaves
    every operand of a live node live: no instruction refers to an erased
    one. *)
Theorem runOnFunction_no_dangling_operand (P P' : Pass) (F F' : Function)
    (Changed : bool) :
  noDanglingOperands F = true -> allocasTakeNoOperand F = true ->
  runOnFunction P F = Done (F', P', Changed) ->
  noDanglingOperands F' = true /\ allocasTakeNoOperand F' = true.
Proof.
  intros HND HAP Hrun. split.
  - unfold runOnFunction in Hrun. destruct (skipFunction F).
    + now injection Hrun as <- <- <-.
    + exact (processCtors_noDangling _ _ _ _ _ Hrun HND HAP).
  - apply keepsInstructions_runOnFunction in Hrun.
    exact (allocasTakeNoOperand_keeps _ _ Hrun HAP).
Qed.

(** X4.  When an accepted candidate has been rewritten, the candidate and
    every instruction of the dead list are gone: none is live and none
    stands in a block. *)
Theorem applied_elision_erases_dead (P P1 P' : Pass) (F F' : Function) (Call : Value)
    (Changed Changed' : bool) :
  canCtorBeElided P F Call = Done (true, P1) ->
  processCtor (F, P, Changed) Call = Done (F', P', Changed') ->
  forall x, x ∈ Call :: DeadInstList P1 ->
    getNode F' x = None /\ notInBlocks F' x.
Proof.
  intros Hok Hrun x Hx.
  destruct (processCtor_applied _ _ _ _ _ _ _ _ Hok Hrun)
    as (C & op0 & op1 & F1 & _ & _ & _ & _ & _ & _ & He & -> & _).
  destruct (Erasures_erased _ _ _ He) as [_ Hgone].
  destruct (Hgone x) as [Hd Hb].
  { apply elem_of_cons in Hx. apply elem_of_cons.
    destruct Hx as [Hx|Hx]; [tauto|right].
    apply list_elem_of_In. rewrite <- in_rev. apply list_elem_of_In. exact Hx. }
  destruct (keeps_replaceAndErase F1 (GetUnderlyingObject F op1)
              (GetUnderlyingObject F op0)) as [K1 K2].
  split; [exact (keepsInstructions_dead _ _ _ K1 Hd)|exact (notInBlocks_keeps _ _ _ K2 Hb)].
Qed.

(** X5.  The rewrite of an accepted candidate goes through only if the
    candidate and the instructions of the dead list are pairwise distinct:
    an instruction recorded twice would be erased twice. *)
Theorem applied_elision_dead_distinct (P P1 P' : Pass) (F F' : Function) (Call : Value)
    (Changed Changed' : bool) :
  canCtorBeElided P F Call = Done (true, P1) ->
  processCtor (F, P, Changed) Call = Done (F', P', Changed') ->
  NoDup (Call :: DeadInstList P1).
Proof.
  intros Hok Hrun.
  destruct (processCtor_applied _ _ _ _ _ _ _ _ Hok Hrun)
    as (C & op0 & op1 & F1 & _ & _ & _ & _ & _ & _ & He & _).
  destruct (Erasures_erased _ _ _ He) as [Hnd _].
  apply NoDup_cons in Hnd. destruct Hnd as [Hn Hnd]. apply NoDup_cons. split.
  - intros Hin. apply Hn.
    apply list_elem_of_In. rewrite <- in_rev. apply list_elem_of_In. exact Hin.
  - apply NoDup_ListNoDup. apply NoDup_ListNoDup, NoDup_rev in Hnd.
    now rewrite rev_involutive in Hnd.
Qed.

(** X6.  When an accepted candidate has been rewritten and [From] is not
    [To], [From] has no consumer left and has been erased: the guard of
    line 118 always lets the erasure through. *)
Theorem applied_elision_erases_From (P P1 P' : Pass) (F F' : Function) (Call : Value)
    (Changed Changed' : bool) (from to : Value) :
  canCtorBeElided P F Call = Done (true, P1) ->
  processCtor (F, P, Changed) Call = Done (F', P', Changed') ->
  From P1 = Some from -> To P1 = Some to -> from <> to ->
  getNode F' from = None /\ getNumUses F' from = 0 /\ notInBlocks F' from.
Proof.
  intros Hok Hrun Hf Ht Hne.
  destruct (processCtor_applied _ _ _ _ _ _ _ _ Hok Hrun)
    as (C & op0 & op1 & F1 & _ & _ & _ & _ & _ & -> & _ & -> & _).
  cbn [From To] in Hf, Ht. injection Hf as Hf. injection Ht as Ht. rewrite Hf, Ht.
  unfold replaceAndErase. rewrite (getNumUses_replaced F1 from to Hne). simpl.
  split; [apply getNode_erase_eq|]. split; [|apply notInBlocks_erase].
  apply getNumUses_zero. intros u n Hn. apply getNode_erase_Some in Hn.
  destruct Hn as [_ Hn].
  exact (proj1 (getNumUses_zero _ _) (getNumUses_replaced F1 from to Hne) u n Hn).
Qed.

(** A series of candidates that ends with the flag set either found it set
    and rejected them all, or has a last candidate that was accepted, all
    later ones being rejected on what that rewrite left. *)
Lemma processCtors_last_applied (P P' : Pass) (F F' : Function) (Changed : bool)
    (cs : list Value) :
  processCtors (F, P, Changed) cs = Done (F', P', true) ->
  (Changed = true /\ F' = F /\ P' = P /\
   forall c, c ∈ cs -> canCtorBeElided P F c = Done (false, P)) \/
  (exists cs1 c cs2 F1 P1 Changed1 Plan,
     cs = cs1 ++ c :: cs2 /\
     processCtors (F, P, Changed) cs1 = Done (F1, P1, Changed1) /\
     canCtorBeElided P1 F1 c = Done (true, Plan) /\
     processCtor (F1, P1, Changed1) c = Done (F', P', true) /\
     forall c', c' ∈ cs2 -> canCtorBeElided P' F' c' = Done (false, P')).
Proof.
  revert F P Changed. induction cs as [|c cs IH]; cbn [processCtors]; intros F P ch H.
  - injection H as <- <- ->. left. repeat split.
    intros c Hc. now apply elem_of_nil in Hc.
  - apply bind_Done in H. destruct H as [[[Fa Pa] cha] [Hs H]].
    destruct (IH _ _ _ H) as [(-> & -> & -> & Hrej)
                              |(cs1 & c0 & cs2 & F1 & P1 & ch1 & Plan & -> & H1 & Hok & Hp & Hrej)].
    + destruct (processCtor_Changed _ _ _ _ _ _ _ Hs) as [[Plan [Hok _]]|(Hr & -> & -> & <-)].
      * right. exists [], c, cs, F, P, ch, Plan. repeat split; auto.
      * left. repeat split. intros x Hx. apply elem_of_cons in Hx.
        destruct Hx as [->|Hx]; auto.
    + right. exists (c :: cs1), c0, cs2, F1, P1, ch1, Plan. repeat split; auto.
      cbn [processCtors]. rewrite Hs. exact H1.
Qed.

(** X14.  After a run that reports a change the worklist of the pass is
    drained and [From] and [To] are the allocations of the last plan that
    was applied: some candidate was accepted on the function as the
    candidates before it had left it, every later candidate was rejected,
    and the members hold an empty [DeadInstList] and the two allocations of
    that candidate's plan. *)
Theorem runOnFunction_drains_DeadInstList (P P' : Pass) (F F' : Function) :
  runOnFunction P F = Done (F', P', true) ->
  exists cs1 c cs2 F1 P1 Changed1 Plan from to,
    collectCtors F = cs1 ++ c :: cs2 /\
    processCtors (F, P, false) cs1 = Done (F1, P1, Changed1) /\
    canCtorBeElided P1 F1 c = Done (true, Plan) /\
    (forall c', c' ∈ cs2 -> canCtorBeElided P' F' c' = Done (false, P')) /\
    From Plan = Some from /\ To Plan = Some to /\
    isaAlloca F1 from = true /\ isaAlloca F1 to = true /\
    P' = {| DeadInstList := []; From := Some from; To := Some to |}.
Proof.
  unfold runOnFunction. destruct (skipFunction F); [discriminate|].
  intros H. destruct (processCtors_last_applied _ _ _ _ _ _ H)
    as [(Hch & _)|(cs1 & c & cs2 & F1 & P1 & ch1 & Plan & Hcs & H1 & Hok & Hp & Hrej)];
    [discriminate|].
  destruct (processCtor_applied _ _ _ _ _ _ _ _ Hok Hp)
    as (C & op0 & op1 & F2 & _ & _ & _ & Hto & Hfrom & -> & _ & _ & -> & _).
  eexists cs1, c, cs2, F1, P1, ch1, _,
    (GetUnderlyingObject F1 op1), (GetUnderlyingObject F1 op0).
  split; [exact Hcs|]. split; [exact H1|]. split; [exact Hok|].
  split; [exact Hrej|]. repeat split; assumption.
Qed.

End Coverage.

(** ** The collector and the classifier *)

Lemma visit_isCandidateAt (F : Function) (CtorVec : list Value) (h : Value) :
  visit F CtorVec h = if isCandidateAt F h then CtorVec ++ [h] else CtorVec.
Proof.
  unfold visit, isCandidateAt, visitCallBase.
  destruct (getNode F h) as [n|]; [|reflexivity].
  destruct (isaCallBase n); [|reflexivity]. now destruct (isCxxCMCtor n).
Qed.

Lemma fold_visit (F : Function) (l acc : list Value) :
  fold_left (visit F) l acc = acc ++ List.filter (isCandidateAt F) l.
Proof.
  revert acc. induction l as [|h l IH]; intros acc; simpl.
  - now rewrite app_nil_r.
  - rewrite IH, visit_isCandidateAt.
    destruct (isCandidateAt F h); [now rewrite <- app_assoc|reflexivity].
Qed.

(** X7.  The collector returns the instructions of the function, block
    after block and in the order of each block, that are live calls
    classified copy/move-construct; nothing else, and each as often as it
    stands in a block. *)
Theorem collectCtors_in_order (F : Function) :
  collectCtors F = List.filter (isCandidateAt F) (flat_map insts (blocks F)).
Proof.
  unfold collectCtors.
  assert (G : forall bs acc,
    fold_left (fun CtorVec BB => fold_left (visit F) (insts BB) CtorVec) bs acc =
    acc ++ List.filter (isCandidateAt F) (flat_map insts bs)).
  { induction bs as [|B bs IH]; intros acc; simpl.
    - now rewrite app_nil_r.
    - rewrite IH, fold_visit, List.filter_app. now rewrite <- app_assoc. }
  exact (G (blocks F) []).
Qed.


(** ** The immediate destructors, in closed form *)

Lemma isCxxDtor_instruction (n : Node) : isCxxDtor n = true -> isaInstruction n = true.
Proof.
  unfold isCxxDtor, isaCallBase, isaInstruction. destruct (opcode n); auto; discriminate.
Qed.

Lemma users_live (F : Function) (v u : Value) :
  u ∈ users F v -> exists n, getNode F u = Some n.
Proof. intros H. apply users_elem in H. destruct H as (n & Hn & _). eauto. Qed.

Lemma hasOneUse_head (F : Function) (v : Value) :
  hasOneUse F v = true -> exists U UN, users F v = [U] /\ getNode F U = Some UN.
Proof.
  unfold hasOneUse, getNumUses. intros H. apply Nat.eqb_eq in H.
  destruct (users F v) as [|U [|U' us]] eqn:E; try discriminate.
  destruct (users_live F v U) as [UN HU]; [rewrite E; apply elem_of_cons; tauto|].
  eauto.
Qed.

Lemma copiedDtorStep_closed (F : Function) (I : Node) (acc : list Value) (IU : Value) :
  isLive F IU = true ->
  copiedDtorStep F I acc IU =
    if isaIntrinsicInst I then
      Done (acc ++ if reportedOfIntrinsic F I IU then [IU] else [])
    else if nullReadConsumer F IU then Abort NullDereference
    else Done (acc ++ if reportedConsumer F IU then [IU] else []).
Proof.
  intros Hlive. apply isLive_Some in Hlive. destruct Hlive as [DI HDI].
  unfold copiedDtorStep, reportedOfIntrinsic, nullReadConsumer, reportedConsumer.
  rewrite HDI.
  destruct (isaInstruction DI) eqn:Hi; simpl.
  2:{ rewrite app_nil_r. now destruct (isaIntrinsicInst I). }
  destruct (isCxxDtor DI) eqn:Hd; simpl.
  { now destruct (isaIntrinsicInst I). }
  destruct (isaIntrinsicInst I) eqn:HI.
  { destruct (isLifetimeEnd I); [reflexivity|now rewrite app_nil_r]. }
  destruct ((isaBitCastInst DI || isaGetElementPtrInst DI) && hasOneUse F IU) eqn:Hc; simpl.
  2:{ now rewrite app_nil_r. }
  apply andb_true_iff in Hc. destruct Hc as [_ Hone].
  destruct (hasOneUse_head _ _ Hone) as (U & UN & -> & ->).
  destruct (isaIntrinsicInst UN); simpl; [reflexivity|].
  destruct (isaInstruction UN); simpl; [|now rewrite app_nil_r].
  destruct (isCxxDtor UN); [reflexivity|now rewrite app_nil_r].
Qed.

Lemma copiedDtorLoop_closed (F : Function) (I : Node) (us acc : list Value) :
  (forall u, u ∈ us -> isLive F u = true) ->
  copiedDtorLoop F I us acc =
    if isaIntrinsicInst I then
      Done (acc ++ List.filter (reportedOfIntrinsic F I) us)
    else if existsb (nullReadConsumer F) us then Abort NullDereference
    else Done (acc ++ List.filter (reportedConsumer F) us).
Proof.
  revert acc. induction us as [|IU us IH]; intros acc Hlive; simpl.
  - rewrite app_nil_r. now destruct (isaIntrinsicInst I).
  - rewrite copiedDtorStep_closed by (apply Hlive, elem_of_cons; tauto).
    assert (Hlive' : forall u, u ∈ us -> isLive F u = true)
      by (intros u Hu; apply Hlive, elem_of_cons; tauto).
    destruct (isaIntrinsicInst I) eqn:HI.
    + simpl. rewrite IH by exact Hlive'. rewrite ?HI.
      destruct (reportedOfIntrinsic F I IU); now rewrite <- app_assoc.
    + destruct (nullReadConsumer F IU); simpl; [reflexivity|].
      rewrite IH by exact Hlive'. rewrite ?HI.
      destruct (existsb (nullReadConsumer F) us); [reflexivity|].
      destruct (reportedConsumer F IU); now rewrite <- app_assoc.
Qed.

Lemma users_all_live (F : Function) (v : Value) :
  forall u, u ∈ users F v -> isLive F u = true.
Proof. intros u Hu. apply isLive_Some. exact (users_live _ _ _ Hu). Qed.

(** X9.  [findImmediateCopiedDtors] in closed form.  Queried for an
    intrinsic call it returns the destructor-call consumers, or every
    consumer that is an instruction when the intrinsic is a lifetime-end
    marker.  Queried for any other instruction it reads through a null
    pointer as soon as one consumer is a cast with a single use whose
    consumer is an intrinsic, and otherwise returns, in the order of the
    consumers, the destructor calls and the casts whose single consumer is
    a destructor call. *)
Theorem findImmediateCopiedDtors_closed_form (F : Function) (h : Value) (I : Node) :
  findImmediateCopiedDtors F h I =
    if isaIntrinsicInst I then
      Done (List.filter (reportedOfIntrinsic F I) (users F h))
    else if existsb (nullReadConsumer F) (users F h) then Abort NullDereference
    else Done (List.filter (reportedConsumer F) (users F h)).
Proof.
  unfold findImmediateCopiedDtors.
  exact (copiedDtorLoop_closed F I (users F h) [] (users_all_live F h)).
Qed.

(** X10.  Whenever [findImmediateCopiedDtors] returns, what it returns is a
    subsequence of the consumers of the queried instruction, holds only
    live instructions, and holds every consumer that is a destructor
    call. *)
Theorem findImmediateCopiedDtors_sound (F : Function) (h : Value) (I : Node)
    (Dtors : list Value) :
  findImmediateCopiedDtors F h I = Done Dtors ->
  sublist Dtors (users F h) /\
  (forall d, d ∈ Dtors ->
     exists n, getNode F d = Some n /\ isaInstruction n = true) /\
  (forall IU DI, IU ∈ users F h -> getNode F IU = Some DI -> isCxxDtor DI = true ->
     IU ∈ Dtors).
Proof.
  unfold findImmediateCopiedDtors.
  rewrite (copiedDtorLoop_closed F I (users F h) [] (users_all_live F h)). simpl.
  assert (G : forall f : Value -> bool,
    (forall IU, f IU = true ->
       exists n, getNode F IU = Some n /\ isaInstruction n = true) ->
    (forall IU DI, getNode F IU = Some DI -> isCxxDtor DI = true -> f IU = true) ->
    sublist (List.filter f (users F h)) (users F h) /\
    (forall d, d ∈ List.filter f (users F h) ->
       exists n, getNode F d = Some n /\ isaInstruction n = true) /\
    (forall IU DI, IU ∈ users F h -> getNode F IU = Some DI -> isCxxDtor DI = true ->
       IU ∈ List.filter f (users F h))).
  { intros f Hf1 Hf2. split; [apply filter_sublist|]. split.
    - intros d Hd. apply list_elem_of_In, filter_In in Hd. apply Hf1, Hd.
    - intros IU DI Hin HDI Hd. apply list_elem_of_In, filter_In.
      split; [now apply list_elem_of_In|]. exact (Hf2 IU DI HDI Hd). }
  destruct (isaIntrinsicInst I).
  - intros [= <-]. apply G.
    + unfold reportedOfIntrinsic. intros IU H.
      destruct (getNode F IU) as [DI|]; [|discriminate].
      apply andb_true_iff in H. destruct H as [H _]. eauto.
    + unfold reportedOfIntrinsic. intros IU DI -> Hd.
      now rewrite (isCxxDtor_instruction _ Hd), Hd.
  - destruct (existsb (nullReadConsumer F) (users F h)); [discriminate|].
    intros [= <-]. apply G.
    + unfold reportedConsumer. intros IU H.
      destruct (getNode F IU) as [DI|]; [|discriminate].
      apply andb_true_iff in H. destruct H as [H _]. eauto.
    + unfold reportedConsumer. intros IU DI -> Hd.
      now rewrite (isCxxDtor_instruction _ Hd), Hd.
Qed.

Section Acceptance.
Context `{An : Analyses}.

(** ** The legality check, in full *)

Lemma castInstructions_iff (F : Function) (us : list Value) :
  castInstructions F us = Done us <->
  forall IU, IU ∈ us -> exists n, getNode F IU = Some n /\ isaInstruction n = true.
Proof.
  induction us as [|u us IH]; simpl.
  - split; [|reflexivity]. intros _ IU H. now apply elem_of_nil in H.
  - destruct (getNode F u) as [n|] eqn:Hn.
    + destruct (isaInstruction n) eqn:Hi.
      * split.
        -- intros H. apply bind_Done in H. destruct H as [r [Hr H]].
           injection H as ->. pose proof (proj1 IH Hr) as Hus.
           intros IU HIU. apply elem_of_cons in HIU. destruct HIU as [->|HIU]; eauto.
        -- intros H.
           assert (E : castInstructions F us = Done us)
             by (apply (proj2 IH); intros IU HIU; apply H, elem_of_cons; tauto).
           now rewrite E.
      * split; [discriminate|]. intros H.
        destruct (H u) as (m & Hm & Him); [apply elem_of_cons; tauto|]. congruence.
    + split; [discriminate|]. intros H.
      destruct (H u) as (m & Hm & _); [apply elem_of_cons; tauto|]. congruence.
Qed.

(** A consumer is let through, whatever has been recorded so far, exactly
    when it meets [consumerAccepted]. *)
Lemma userStep_accepts_iff (F : Function) (Ctor : Value) (ImmDtors acc : list Value)
    (U : Value) :
  (exists acc', userStep F Ctor ImmDtors acc U = Done (Some acc')) <->
  consumerAccepted F Ctor ImmDtors U.
Proof.
  unfold userStep, consumerAccepted.
  destruct (getNode F U) as [UI|] eqn:HU.
  2:{ split; [intros [? H]; discriminate|intros (UI & H & _); discriminate]. }
  destruct (isaInstruction UI) eqn:Hi; simpl.
  2:{ split; [intros [? H]; discriminate|]. intros (UI' & [= <-] & H & _). congruence. }
  destruct (Nat.eqb U Ctor) eqn:Heq.
  { apply Nat.eqb_eq in Heq. split; [|eauto]. intros _. exists UI. auto. }
  apply Nat.eqb_neq in Heq.
  destruct (isTrivialInstruction F U UI) eqn:Ht.
  - split.
    + intros [acc' H]. apply bind_Done in H. destruct H as [IUs [Hc _]].
      pose proof (castInstructions_Done _ _ _ Hc) as ->.
      pose proof (proj1 (castInstructions_iff _ _) Hc) as Hall.
      exists UI. auto 6.
    + intros (UI' & [= <-] & _ & [H|[[_ H]|[H _]]]); [contradiction| |congruence].
      rewrite (proj2 (castInstructions_iff _ _) H). simpl. eauto.
  - destruct (isPotentiallyReachable F Ctor U) eqn:Hr.
    + split.
      * intros [acc' H]. apply bind_Done in H. destruct H as [b [Hd H]].
        destruct b; [|discriminate]. apply dtorLoop_true in Hd. destruct Hd as [Hn Hall].
        exists UI. repeat split; auto. right. right. split; [exact Ht|]. right.
        split; [|exact Hall]. intros E. specialize (Hn E). discriminate.
      * intros (UI' & [= <-] & _ & [H|[[H _]|[_ [H|[Hn Hall]]]]]);
          [contradiction|congruence|congruence|].
        assert (E : dtorLoop F Ctor U ImmDtors false = Done true)
          by (apply dtorLoop_true; split; [intros; contradiction|exact Hall]).
        rewrite E. simpl. eauto.
    + split; [|eauto]. intros _. exists UI. auto 7.
Qed.

Lemma userLoop_accepts_iff (F : Function) (Ctor : Value) (ImmDtors us acc l : list Value) :
  userLoop F Ctor ImmDtors us acc = Done (Some l) <->
  (forall U, U ∈ us -> consumerAccepted F Ctor ImmDtors U) /\
  l = acc ++ deferredInsts F Ctor us.
Proof.
  split.
  - intros H. split; [|exact (userLoop_InstList _ _ _ _ _ _ H)].
    intros U HU. destruct (userLoop_accepts _ _ _ _ _ _ U H HU) as (a & a' & Hs).
    apply (userStep_accepts_iff F Ctor ImmDtors a U). eauto.
  - intros [Hall ->].
    assert (G : exists l', userLoop F Ctor ImmDtors us acc = Done (Some l')).
    { clear -Hall. revert acc. induction us as [|U us IH]; intros acc; simpl; [eauto|].
      destruct (proj2 (userStep_accepts_iff F Ctor ImmDtors acc U)) as [acc' Hs];
        [apply Hall, elem_of_cons; tauto|].
      rewrite Hs. simpl. apply IH. intros V HV. apply Hall, elem_of_cons. tauto. }
    destruct G as [l' Hl']. rewrite Hl'.
    now rewrite (userLoop_InstList _ _ _ _ _ _ Hl').
Qed.

(** X11.  The legality check returns [true] exactly when: the candidate is
    live and has its two operands; both resolve to stack allocations; the
    source operand is a live instruction; the search for its immediate
    destructors returns; and every consumer of the source allocation is a
    live instruction that is the candidate itself, or is trivial with only
    instructions for consumers, or is not reachable from the candidate, or
    is reached by every immediate destructor, of which there is at least
    one and each of which the candidate reaches.  The plan then holds the
    two allocations and, for dead list, the trivial consumers each followed
    by its own consumers. *)
Theorem canCtorBeElided_true_iff (P P' : Pass) (F : Function) (Ctor : Value) :
  canCtorBeElided P F Ctor = Done (true, P') <->
  exists C op0 op1 IF ImmDtors,
    getNode F Ctor = Some C /\
    operands C !! 0 = Some op0 /\ operands C !! 1 = Some op1 /\
    isaAlloca F (GetUnderlyingObject F op0) = true /\
    isaAlloca F (GetUnderlyingObject F op1) = true /\
    getNode F op1 = Some IF /\ isaInstruction IF = true /\
    findImmediateCopiedDtors F op1 IF = Done ImmDtors /\
    (forall U, U ∈ users F (GetUnderlyingObject F op1) ->
       consumerAccepted F Ctor ImmDtors U) /\
    P' = {| DeadInstList := deferredInsts F Ctor (users F (GetUnderlyingObject F op1));
            From := Some (GetUnderlyingObject F op1);
            To := Some (GetUnderlyingObject F op0) |}.
Proof.
  unfold canCtorBeElided, getOperand. split.
  - destruct (getNode F Ctor) as [C|] eqn:HC; [|discriminate].
    destruct (operands C !! 0) as [op0|] eqn:H0; simpl; [|discriminate].
    destruct (operands C !! 1) as [op1|] eqn:H1; simpl; [|discriminate].
    destruct (isaAlloca F (GetUnderlyingObject F op0)) eqn:Ha0; simpl; [|discriminate].
    destruct (isaAlloca F (GetUnderlyingObject F op1)) eqn:Ha1; simpl; [|discriminate].
    destruct (getNode F op1) as [IF|] eqn:HIF; [|discriminate].
    destruct (isaInstruction IF) eqn:Hi; simpl; [|discriminate].
    intros H. apply bind_Done in H. destruct H as [ImmDtors [Hd H]].
    apply bind_Done in H. destruct H as [r [Hl H]].
    destruct r as [InstList|]; [|discriminate]. injection H as <-.
    apply userLoop_accepts_iff in Hl. destruct Hl as [Hall ->].
    exists C, op0, op1, IF, ImmDtors. repeat split; auto.
  - intros (C & op0 & op1 & IF & ImmDtors & HC & H0 & H1 & Ha0 & Ha1 & HIF & Hi & Hd
            & Hall & ->).
    rewrite HC, H0, H1. simpl. rewrite Ha0, Ha1, HIF, Hi. simpl. rewrite Hd. simpl.
    assert (Hl : userLoop F Ctor ImmDtors (users F (GetUnderlyingObject F op1)) [] =
                 Done (Some (deferredInsts F Ctor (users F (GetUnderlyingObject F op1)))))
      by (apply userLoop_accepts_iff; split; [exact Hall|reflexivity]).
    now rewrite Hl.
Qed.

(** X12.  The legality check writes the members of the pass when it
    returns [true] and at no other time, and reads none of them: run from
    two states of the members it fails alike, or returns the same verdict,
    with the same plan on [true] and each state untouched on [false]. *)
Theorem canCtorBeElided_members_written_on_success (P Q : Pass) (F : Function)
    (Ctor : Value) :
  match canCtorBeElided P F Ctor, canCtorBeElided Q F Ctor with
  | Done (b, P'), Done (b', Q') =>
      b = b' /\ if b then P' = Q' else P' = P /\ Q' = Q
  | Abort f, Abort f' => f = f'
  | _, _ => False
  end.
Proof.
  unfold canCtorBeElided, getOperand.
  destruct (getNode F Ctor) as [C|]; [|reflexivity].
  destruct (operands C !! 0) as [op0|]; simpl; [|reflexivity].
  destruct (operands C !! 1) as [op1|]; simpl; [|reflexivity].
  destruct (negb _ || negb _); [auto|].
  destruct (getNode F op1) as [IF|]; [|reflexivity].
  destruct (negb (isaInstruction IF)); [reflexivity|].
  destruct (findImmediateCopiedDtors F op1 IF) as [ImmDtors|]; simpl; [|reflexivity].
  destruct (userLoop F Ctor ImmDtors _ []) as [[InstList|]|]; simpl; auto.
Qed.

Lemma filter_others_nil (Ctor : Value) (f : Value -> bool) (us : list Value) :
  (forall U, U ∈ us -> U = Ctor) ->
  List.filter (fun U => negb (Nat.eqb U Ctor) && f U) us = [].
Proof.
  induction us as [|U us IH]; intros H; [reflexivity|]. simpl.
  rewrite (H U) by (apply elem_of_cons; tauto). rewrite Nat.eqb_refl. simpl.
  apply IH. intros V HV. apply H, elem_of_cons. tauto.
Qed.

(** X13.  A candidate whose source operand is a stack allocation consumed
    by nothing but the candidate passes the legality check, with an empty
    dead list, as soon as its destination resolves to a stack allocation. *)
Theorem sole_consumer_accepted (P : Pass) (F : Function) (Ctor : Value) (C : Node)
    (op0 op1 : Value) :
  getNode F Ctor = Some C -> isaCallBase C = true ->
  operands C !! 0 = Some op0 -> operands C !! 1 = Some op1 ->
  isaAlloca F (GetUnderlyingObject F op0) = true ->
  isaAlloca F op1 = true -> GetUnderlyingObject F op1 = op1 ->
  (forall U, U ∈ users F op1 -> U = Ctor) ->
  canCtorBeElided P F Ctor =
    Done (true, {| DeadInstList := [];
                   From := Some op1;
                   To := Some (GetUnderlyingObject F op0) |}).
Proof.
  intros HC Hcall H0 H1 Ha0 Ha1 Hres Hsole.
  unfold canCtorBeElided, getOperand. rewrite HC, H0, H1. simpl.
  rewrite Hres, Ha0, Ha1. simpl.
  unfold isaAlloca in Ha1. destruct (getNode F op1) as [IF|] eqn:HIF; [|discriminate].
  assert (Hi : isaInstruction IF = true)
    by (unfold isaAllocaInst, isaInstruction in *; destruct (opcode IF); auto; discriminate).
  assert (Hni : isaIntrinsicInst IF = false)
    by (unfold isaAllocaInst, isaIntrinsicInst in *; destruct (opcode IF); auto; discriminate).
  rewrite Hi. simpl.
  assert (Hnull : nullReadConsumer F Ctor = false).
  { unfold nullReadConsumer. rewrite HC.
    unfold isaCallBase, isaBitCastInst, isaGetElementPtrInst in *.
    destruct (opcode C); try discriminate. simpl. now rewrite !andb_false_r. }
  assert (Hd : exists ImmDtors, findImmediateCopiedDtors F op1 IF = Done ImmDtors).
  { unfold findImmediateCopiedDtors.
    rewrite (copiedDtorLoop_closed F IF (users F op1) [] (users_all_live F op1)), Hni.
    assert (E : existsb (nullReadConsumer F) (users F op1) = false).
    { apply not_true_is_false. intros E. apply existsb_exists in E.
      destruct E as (U & HU & HN). apply list_elem_of_In in HU.
      rewrite (Hsole U HU) in HN. congruence. }
    rewrite E. eauto. }
  destruct Hd as [ImmDtors ->]. simpl.
  assert (Hl : userLoop F Ctor ImmDtors (users F op1) [] =
               Done (Some (deferredInsts F Ctor (users F op1)))).
  { apply userLoop_accepts_iff. split; [|reflexivity].
    intros U HU. rewrite (Hsole U HU). exists C. split; [exact HC|]. split; [|auto].
    unfold isaCallBase, isaInstruction in *. destruct (opcode C); auto; discriminate. }
  rewrite Hl. simpl. do 3 f_equal.
  unfold deferredInsts.
  now rewrite (filter_others_nil Ctor (isTrivialAt F) (users F op1) Hsole).
Qed.

End Acceptance.

(** ** The archive test program *)

(** X15.  In [a.c], as long as no signed overflow occurs, [aa] undoes [a]
    and [a] undoes [aa], whatever the value of [__a_global]: on an [int]
    argument, if the one returns then the other, called on the result,
    returns the argument. *)
Theorem ArchiveTest_round_trip (a_global arg r : Z) :
  ArchiveTest.isInt arg = true ->
  (ArchiveTest.a a_global arg = Some r -> ArchiveTest.aa a_global r = Some arg) /\
  (ArchiveTest.aa a_global arg = Some r -> ArchiveTest.a a_global r = Some arg).
Proof.
  intros Harg. unfold ArchiveTest.a, ArchiveTest.aa, ArchiveTest.checked. split.
  - destruct (ArchiveTest.isInt (arg + a_global)); [|discriminate].
    intros [= <-]. replace (arg + a_global - a_global)%Z with arg by lia.
    now rewrite Harg.
  - destruct (ArchiveTest.isInt (arg - a_global)); [|discriminate].
    intros [= <-]. replace (arg - a_global + a_global)%Z with arg by lia.
    now rewrite Harg.
Qed.

Lemma ArchiveTest_round_trip_witness :
  ArchiveTest.isInt 41 = true /\
  ArchiveTest.a ArchiveTest.a_global_init 41 = Some 42%Z /\
  ArchiveTest.aa ArchiveTest.a_global_init 42 = Some 41%Z.
Proof.
  split; [reflexivity|]. split; [reflexivity|].
  exact (proj1 (ArchiveTest_round_trip ArchiveTest.a_global_init 41 42 eq_refl) eq_refl).
Defined.

(** ** Witnesses of the further statements *)

Lemma runOnFunction_keeps_instructions_witness :
  runOnFunction emptyPass (straightLine (plainUse 1)) =
    Done (straightLineElided (plainUse 1),
          {| DeadInstList := []; From := Some 0; To := Some 1 |}, true) /\
  length (arena (straightLineElided (plainUse 1))) =
    length (arena (straightLine (plainUse 1))) /\
  forall v n', getNode (straightLineElided (plainUse 1)) v = Some n' ->
    exists n, getNode (straightLine (plainUse 1)) v = Some n /\ opcode n' = opcode n /\
              length (operands n') = length (operands n).
Proof.
  split; [reflexivity|].
  exact (runOnFunction_keeps_instructions (An := referenceAnalyses) emptyPass _
           (straightLine (plainUse 1)) _ true eq_refl).
Defined.

Lemma runOnFunction_keeps_block_order_witness :
  runOnFunction emptyPass (straightLine (plainUse 1)) =
    Done (straightLineElided (plainUse 1),
          {| DeadInstList := []; From := Some 0; To := Some 1 |}, true) /\
  Forall2 (fun B B' => sublist (insts B') (insts B))
          (blocks (straightLine (plainUse 1))) (blocks (straightLineElided (plainUse 1))).
Proof.
  split; [reflexivity|].
  exact (runOnFunction_keeps_block_order (An := referenceAnalyses) emptyPass _
           (straightLine (plainUse 1)) _ true eq_refl).
Defined.

Lemma runOnFunction_no_dangling_operand_witness :
  noDanglingOperands usedAfterDestroy = true /\
  allocasTakeNoOperand usedAfterDestroy = true /\
  (exists F' P',
     runOnFunction emptyPass usedAfterDestroy = Done (F', P', true) /\
     noDanglingOperands F' = true /\ allocasTakeNoOperand F' = true).
Proof.
  split; [reflexivity|]. split; [reflexivity|].
  eexists _, _. split; [reflexivity|].
  exact (runOnFunction_no_dangling_operand (An := referenceAnalyses) emptyPass _
           usedAfterDestroy _ true eq_refl eq_refl eq_refl).
Defined.

Lemma applied_elision_erases_dead_witness :
  canCtorBeElided emptyPass (straightLine (plainUse 1)) 2 =
    Done (true, {| DeadInstList := [3]; From := Some 0; To := Some 1 |}) /\
  forall x, x ∈ [2; 3] ->
    getNode (straightLineElided (plainUse 1)) x = None /\
    notInBlocks (straightLineElided (plainUse 1)) x.
Proof.
  split; [reflexivity|].
  exact (applied_elision_erases_dead (An := referenceAnalyses) emptyPass
           {| DeadInstList := [3]; From := Some 0; To := Some 1 |}
           {| DeadInstList := []; From := Some 0; To := Some 1 |}
           (straightLine (plainUse 1)) (straightLineElided (plainUse 1)) 2 false true
           eq_refl eq_refl).
Defined.

Lemma applied_elision_dead_distinct_witness :
  canCtorBeElided emptyPass (straightLine (plainUse 1)) 2 =
    Done (true, {| DeadInstList := [3]; From := Some 0; To := Some 1 |}) /\
  NoDup [2; 3].
Proof.
  split; [reflexivity|].
  exact (applied_elision_dead_distinct (An := referenceAnalyses) emptyPass
           {| DeadInstList := [3]; From := Some 0; To := Some 1 |}
           {| DeadInstList := []; From := Some 0; To := Some 1 |}
           (straightLine (plainUse 1)) (straightLineElided (plainUse 1)) 2 false true
           eq_refl eq_refl).
Defined.

Lemma applied_elision_erases_From_witness :
  canCtorBeElided emptyPass (straightLine (plainUse 1)) 2 =
    Done (true, {| DeadInstList := [3]; From := Some 0; To := Some 1 |}) /\
  getNode (straightLineElided (plainUse 1)) 0 = None /\
  getNumUses (straightLineElided (plainUse 1)) 0 = 0 /\
  notInBlocks (straightLineElided (plainUse 1)) 0.
Proof.
  split; [reflexivity|].
  assert (Hne : 0 <> 1) by lia.
  exact (applied_elision_erases_From (An := referenceAnalyses) emptyPass
           {| DeadInstList := [3]; From := Some 0; To := Some 1 |}
           {| DeadInstList := []; From := Some 0; To := Some 1 |}
           (straightLine (plainUse 1)) (straightLineElided (plainUse 1)) 2 false true 0 1
           eq_refl eq_refl eq_refl eq_refl Hne).
Defined.

Lemma runOnFunction_drains_DeadInstList_witness :
  runOnFunction emptyPass copiedTwice =
    Done (replaceAndErase (eraseFromParent (eraseFromParent copiedTwice 4) 5) 0 2,
          {| DeadInstList := []; From := Some 0; To := Some 2 |}, true) /\
  exists cs1 c cs2 F1 P1 Changed1 Plan from to,
    collectCtors copiedTwice = cs1 ++ c :: cs2 /\
    processCtors (copiedTwice, emptyPass, false) cs1 = Done (F1, P1, Changed1) /\
    canCtorBeElided P1 F1 c = Done (true, Plan) /\
    (forall c', c' ∈ cs2 ->
       canCtorBeElided {| DeadInstList := []; From := Some 0; To := Some 2 |}
         (replaceAndErase (eraseFromParent (eraseFromParent copiedTwice 4) 5) 0 2) c' =
       Done (false, {| DeadInstList := []; From := Some 0; To := Some 2 |})) /\
    From Plan = Some from /\ To Plan = Some to /\
    isaAlloca F1 from = true /\ isaAlloca F1 to = true /\
    {| DeadInstList := []; From := Some 0; To := Some 2 |} =
      {| DeadInstList := []; From := Some from; To := Some to |}.
Proof.
  split; [reflexivity|].
  exact (runOnFunction_drains_DeadInstList (An := referenceAnalyses) emptyPass
           {| DeadInstList := []; From := Some 0; To := Some 2 |}
           copiedTwice _ eq_refl).
Defined.

Lemma findImmediateCopiedDtors_sound_witness :
  findImmediateCopiedDtors destroyedOnBothArms 0 alloca = Done [4; 6] /\
  sublist [4; 6] (users destroyedOnBothArms 0) /\
  (forall d, d ∈ [4; 6] ->
     exists n, getNode destroyedOnBothArms d = Some n /\ isaInstruction n = true) /\
  (forall IU DI, IU ∈ users destroyedOnBothArms 0 ->
     getNode destroyedOnBothArms IU = Some DI -> isCxxDtor DI = true -> IU ∈ [4; 6]).
Proof.
  split; [reflexivity|].
  exact (findImmediateCopiedDtors_sound destroyedOnBothArms 0 alloca [4; 6] eq_refl).
Defined.

Lemma sole_consumer_accepted_witness :
  getNode copyOnly 2 = Some (ctorCall 1 0 3) /\
  users copyOnly 0 = [2] /\
  canCtorBeElided emptyPass copyOnly 2 =
    Done (true, {| DeadInstList := []; From := Some 0; To := Some 1 |}).
Proof.
  split; [reflexivity|]. split; [reflexivity|].
  assert (Hsole : forall U, U ∈ users copyOnly 0 -> U = 2).
  { intros U HU. change (U ∈ [2]) in HU. now apply list_elem_of_singleton in HU. }
  exact (sole_consumer_accepted (An := referenceAnalyses) emptyPass copyOnly 2
           (ctorCall 1 0 3) 1 0 eq_refl eq_refl eq_refl eq_refl eq_refl eq_refl eq_refl
           Hsole).
Defined.
